(** * PythonCounterPmf: Counters as multisets, PMFs and Bayesian suites

    A shallow embedding of the notebook [PythonCounterPmf.ipynb]:
    [is_anagram], [Multiset.is_subset], [can_spell], [Pmf.normalize],
    [Pmf.__add__], [Pmf.__hash__], [Pmf.__eq__], [Suite.bayesian_update],
    [make_die] and [DiceSuite.likelihood].

    Conventions.
    - A Python [dict] (and so a [Counter]) is an association list in
      iteration order whose keys are pairwise distinct; [setitem] overwrites
      in place or appends, as a dict assignment does.
    - Weights are taken from a [Number] structure.  [binary64] is what the
      interpreter computes with ([float], IEEE 754 double precision);
      [exact] is rational arithmetic, the reading of the same code over the
      reals (and what [__add__] computes on [fractions.Fraction] weights).
      Integer counts of a freshly built Counter are represented in the
      structure by [n_one] and sums of it; in [binary64] this is exact below
      2^53.
    - An operation that mutates [self] in place returns the new contents of
      [self]; an operation that can raise returns an [outcome].
    - Objects that are compared or hashed by identity live in a [heap];
      a reference is the address of the object.
    - A float is read as the rational it stands for ([float_to_Q]) when
      a property speaks of a tolerance.  What the primitive floats compute
      is specified by [SpecFloat]; the properties that hold for every Pmf
      follow the rounding of its additions and divisions there.
    - The [name] attribute set on some Pmfs, [Pmf.render] and the plotting
      cells take no part in any of the operations above and are left
      out. *)

From Stdlib Require Import Ascii String.
From Stdlib Require Import ZArith List Bool Lia Permutation.
From Stdlib Require Import QArith Qcanon Qabs Qpower Lqa.
From Stdlib Require Import Floats.
Import ListNotations.

Local Open Scope Z_scope.

(** * Part I: the program *)

(** ** Keys *)

(** Keys of a dict are compared with [==]; for the key types of the
    notebook (characters, integers, object identities) this is equality. *)
Class EqKey (K : Type) := {
  keqb : K -> K -> bool;
  keqb_eq : forall a b, keqb a b = true <-> a = b
}.

#[export] Instance EqKey_Z : EqKey Z := {| keqb := Z.eqb; keqb_eq := Z.eqb_eq |}.
#[export] Instance EqKey_nat : EqKey nat := {| keqb := Nat.eqb; keqb_eq := Nat.eqb_eq |}.
#[export] Instance EqKey_ascii : EqKey ascii :=
  {| keqb := Ascii.eqb; keqb_eq := Ascii.eqb_eq |}.

Definition key_dec {K} `{EqKey K} (a b : K) : {a = b} + {a <> b} :=
  match bool_dec (keqb a b) true with
  | left e => left (proj1 (keqb_eq a b) e)
  | right n => right (fun e => n (proj2 (keqb_eq a b) e))
  end.

(** ** Python dicts *)

Section Dict.
Context {K V : Type} `{EqKey K}.

Definition dict := list (K * V).

Definition keys (d : dict) : list K := map fst d.
Definition values (d : dict) : list V := map snd d.
(** [d.items()] *)
Definition items (d : dict) : list (K * V) := d.

(** [d.get(k)] *)
Fixpoint get (d : dict) (k : K) : option V :=
  match d with
  | [] => None
  | (k', v) :: d' => if keqb k' k then Some v else get d' k
  end.

(** [d[k] = v] *)
Fixpoint setitem (d : dict) (k : K) (v : V) : dict :=
  match d with
  | [] => [(k, v)]
  | (k', v') :: d' =>
      if keqb k' k then (k', v) :: d' else (k', v') :: setitem d' k v
  end.

(** [d1 == d2] for dicts: same number of entries, and every entry of
    [d1] is an entry of [d2] with an equal value. *)
Definition dict_eq (veqb : V -> V -> bool) (d1 d2 : dict) : bool :=
  Nat.eqb (length d1) (length d2)
  && forallb (fun kv => match get d2 (fst kv) with
                        | Some v' => veqb (snd kv) v'
                        | None => false
                        end) d1.
End Dict.
Arguments dict : clear implicits.

(** ** [collections.Counter] *)

(** The counts of a Counter are values of any type with a zero, a one and
    an addition: Python integers for a Counter built from a sequence. *)
Section Counter.
Context {K V : Type} `{EqKey K}.
Variables (zero one : V) (add : V -> V -> V).

(** [c[k]]: [dict.__getitem__] falling back on [Counter.__missing__],
    which returns 0 and does not store the key.  The second component
    is the Counter after the access. *)
Definition getitem_st (c : dict K V) (k : K) : V * dict K V :=
  match get c k with
  | Some v => (v, c)
  | None => (zero, c)
  end.

Definition getitem (c : dict K V) (k : K) : V := fst (getitem_st c k).

(** [c.update(iterable)]:
    [for elem in iterable: self[elem] = self.get(elem, 0) + 1] *)
Definition update (c : dict K V) (iterable : list K) : dict K V :=
  fold_left
    (fun self elem =>
       setitem self elem
         (add (match get self elem with Some v => v | None => zero end) one))
    iterable c.

(** [Counter(iterable)] *)
Definition Counter (iterable : list K) : dict K V := update [] iterable.
End Counter.

(** Integer Counters, as built from a sequence. *)
Definition IntCounter {K} `{EqKey K} (iterable : list K) : dict K Z :=
  Counter 0 1 Z.add iterable.

(** Number of occurrences of [x] in a sequence. *)
Definition occ {K} `{EqKey K} (x : K) (l : list K) : Z :=
  Z.of_nat (count_occ key_dec l x).

(** ** Anagrams *)

(** [Counter(word1) == Counter(word2)].  The notebook is Python 2 (its
    cells use the [print] statement), where [Counter] defines no [__eq__]
    of its own and the comparison is the one of [dict]. *)
Definition is_anagram {K} `{EqKey K} (word1 word2 : list K) : bool :=
  dict_eq Z.eqb (IntCounter word1) (IntCounter word2).

(** A string is iterated character by character. *)
Definition chars (s : string) : list ascii := list_ascii_of_string s.

(** ** Multisets *)

Section Multiset.
Context {K : Type} `{EqKey K}.

(** [Multiset(iterable)] *)
Definition Multiset (iterable : list K) : dict K Z := IntCounter iterable.

(** The loop of [is_subset] over [self.items()]; the second component is
    [other] after the loop. *)
Fixpoint is_subset_loop (its : list (K * Z)) (other : dict K Z)
  : bool * dict K Z :=
  match its with
  | [] => (true, other)
  | (char, count) :: rest =>
      let '(v, other') := getitem_st 0 other char in
      if v <? count then (false, other') else is_subset_loop rest other'
  end.

Definition is_subset (self other : dict K Z) : bool * dict K Z :=
  is_subset_loop (items self) other.

(** [__le__ = is_subset] *)
Definition Multiset_le (self other : dict K Z) : bool :=
  fst (is_subset self other).
End Multiset.

(** [Multiset(word) <= Multiset(tiles)] *)
Definition can_spell (word tiles : string) : bool :=
  Multiset_le (Multiset (chars word)) (Multiset (chars tiles)).

(** ** Numbers *)

Record Number := {
  num : Type;
  n_zero : num;
  n_one : num;
  n_add : num -> num -> num;
  n_mul : num -> num -> num;
  n_div : num -> num -> num;
  (** [x == 0] *)
  n_is_zero : num -> bool
}.

(** Python's [float]. *)
Definition binary64 : Number := {|
  num := float;
  n_zero := 0%float;
  n_one := 1%float;
  n_add := PrimFloat.add;
  n_mul := PrimFloat.mul;
  n_div := PrimFloat.div;
  n_is_zero := fun x => PrimFloat.eqb x 0%float
|}.

(** Exact rational arithmetic. *)
Definition exact : Number := {|
  num := Qc;
  n_zero := 0%Qc;
  n_one := 1%Qc;
  n_add := Qcplus;
  n_mul := Qcmult;
  n_div := Qcdiv;
  n_is_zero := fun x => Qc_eq_bool x 0%Qc
|}.

Inductive exn : Set := ZeroDivisionError.

(** What a method that mutates [self] leaves behind: the contents of
    [self] when it returns, or the exception and the contents of [self]
    at the point where it was raised. *)
Inductive outcome (S : Type) : Type :=
| Returns (self : S)
| Raises (e : exn) (self : S).
Arguments Returns {S} self.
Arguments Raises {S} e self.

Definition state_of {S} (o : outcome S) : S :=
  match o with Returns s => s | Raises _ s => s end.

(** ** Probability mass functions *)

Section Pmf.
Variable N : Number.
Context {K : Type} `{EqKey K}.

Local Abbreviation weight := (num N).
Local Abbreviation pmf := (dict K weight).

(** [x / y] with [y] a float: a zero divisor raises. *)
Definition truediv (x y : weight) : option weight :=
  if n_is_zero N y then None else Some (n_div N x y).

(** [Pmf(iterable)]: the constructor inherited from Counter. *)
Definition Pmf (iterable : list K) : pmf :=
  Counter (n_zero N) (n_one N) (n_add N) iterable.

(** [self[key]] *)
Definition weight_of (self : pmf) (key : K) : weight :=
  getitem (n_zero N) self key.

(** [float(sum(self.values()))]: [sum] starts from 0 and adds the values
    in iteration order. *)
Definition total (self : pmf) : weight :=
  fold_left (n_add N) (values self) (n_zero N).

(** [for key in self: self[key] /= total] *)
Fixpoint normalize_loop (ks : list K) (total : weight) (self : pmf)
  : outcome pmf :=
  match ks with
  | [] => Returns self
  | key :: rest =>
      match truediv (weight_of self key) total with
      | None => Raises ZeroDivisionError self
      | Some w => normalize_loop rest total (setitem self key w)
      end
  end.

Definition normalize (self : pmf) : outcome pmf :=
  normalize_loop (keys self) (total self) self.

(** *** Objects *)

(** The object store: the Pmf at address [r] is the [r]-th entry. *)
Definition heap := list pmf.
Definition ref := nat.

Definition deref (h : heap) (r : ref) : pmf := nth r h [].

Fixpoint store (h : heap) (r : ref) (d : pmf) : heap :=
  match h, r with
  | [], _ => []
  | _ :: h', O => d :: h'
  | o :: h', S r' => o :: store h' r' d
  end.

(** A new object, at a fresh address. *)
Definition alloc (h : heap) (d : pmf) : heap * ref := (h ++ [d], length h).

(** [id(self)]: the address of the object. *)
Definition object_id (self : ref) : Z := Z.of_nat self.

(** [Pmf.__hash__]: [return id(self)] *)
Definition Pmf_hash (self : ref) : Z := object_id self.

(** [Pmf.__eq__]: [return self is other] *)
Definition Pmf_eq (self other : ref) : bool := Nat.eqb self other.

(** *** Sum of two distributions *)

Variable key_add : K -> K -> K.

(** [pmf[key] += w] on the object at [pmf]. *)
Definition iadd_item (h : heap) (pmf : ref) (key : K) (w : weight) : heap :=
  let '(old, d) := getitem_st (n_zero N) (deref h pmf) key in
  store h pmf (setitem d key (n_add N old w)).

(** [for key2, prob2 in other.items(): pmf[key1 + key2] += prob1 * prob2] *)
Definition add_inner (pmf : ref) (key1 : K) (prob1 : weight)
    (its : list (K * weight)) (h : heap) : heap :=
  fold_left
    (fun h kp => iadd_item h pmf (key_add key1 (fst kp)) (n_mul N prob1 (snd kp)))
    its h.

(** [Pmf.__add__]: the heap after the call and the address of the
    result. *)
Definition Pmf_add (h : heap) (self other : ref) : heap * ref :=
  let '(h0, pmf) := alloc h [] in
  (fold_left
     (fun h kp => add_inner pmf (fst kp) (snd kp) (items (deref h other)) h)
     (items (deref h0 self)) h0,
   pmf).

(** The contents of the result of [__add__] as a function of the contents
    of its operands. *)
Definition combine_sum (p q : pmf) : pmf :=
  fold_left
    (fun d kp1 =>
       fold_left
         (fun d kp2 =>
            setitem d (key_add (fst kp1) (fst kp2))
              (n_add N (weight_of d (key_add (fst kp1) (fst kp2)))
                       (n_mul N (snd kp1) (snd kp2))))
         q d)
    p [].
End Pmf.

(** ** Suites *)

Section Suite.
Variable N : Number.
Context {Hypo Data : Type} `{EqKey Hypo}.

(** The [likelihood] method a child class provides. *)
Variable likelihood : Data -> Hypo -> num N.

(** [for hypo in self: like = self.likelihood(data, hypo); self[hypo] *= like] *)
Fixpoint update_loop (hypos : list Hypo) (data : Data)
    (self : dict Hypo (num N)) : dict Hypo (num N) :=
  match hypos with
  | [] => self
  | hypo :: rest =>
      let like := likelihood data hypo in
      update_loop rest data
        (setitem self hypo (n_mul N (weight_of N self hypo) like))
  end.

Definition bayesian_update (self : dict Hypo (num N)) (data : Data)
  : outcome (dict Hypo (num N)) :=
  normalize N (update_loop (keys self) data self).
End Suite.

(** ** The dice problem *)

(** [range(a, b)] *)
Definition range (a b : Z) : list Z :=
  map (fun i => a + Z.of_nat i) (seq 0 (Z.to_nat (b - a))).

(** [make_die(num_sides)] *)
Definition make_die (N : Number) (num_sides : Z) : outcome (dict Z (num N)) :=
  normalize N (Pmf N (range 1 (num_sides + 1))).

(** [dice = [make_die(x) for x in [4, 6, 8, 12, 20]]]: five objects, at
    addresses 0 to 4. *)
Definition dice (N : Number) : heap N (K:=Z) :=
  map (fun x => state_of (make_die N x)) [4; 6; 8; 12; 20].

(** [DiceSuite.likelihood]: [return hypo[data]] *)
Definition DiceSuite_likelihood (N : Number) (h : heap N (K:=Z))
    (data : Z) (hypo : ref) : num N :=
  weight_of N (deref N h hypo) data.

(** [DiceSuite(dice)]: the dice are hashed and compared by identity, so each
    of them is counted once. *)
Definition DiceSuite (N : Number) (hypos : list ref) : dict ref (num N) :=
  Pmf N hypos.

(** ** Reading a float as a rational *)

Definition float_to_Q (f : float) : option Q :=
  match Prim2SF f with
  | S754_zero _ => Some 0%Q
  | S754_finite s m e =>
      Some (inject_Z (if s then Zneg m else Zpos m) * Qpower 2 e)%Q
  | _ => None
  end.

(** [|f - q| <= tol], exactly. *)
Definition close_to (tol : Q) (f : float) (q : Q) : bool :=
  match float_to_Q f with
  | Some x => Qle_bool (Qabs (x - q)) tol
  | None => false
  end.

(** * Part II: vocabulary of the properties *)

Section Vocabulary.
Context {K V : Type} `{EqKey K}.

(** The loop [for k in d: d[k] = g(k, d[k])], run over the keys [ks]. *)
Definition rewrite_all (zero : V) (g : K -> V -> V) (ks : list K)
    (d : dict K V) : dict K V :=
  fold_left (fun s k => setitem s k (g k (getitem zero s k))) ks d.

(** Every weight replaced where it stands. *)
Definition map_weights (g : K -> V -> V) (d : dict K V) : dict K V :=
  map (fun kv => (fst kv, g (fst kv) (snd kv))) d.
End Vocabulary.

(** All weights divided by [t]. *)
Definition scaled (N : Number) {K : Type} (t : num N) (self : dict K (num N))
  : dict K (num N) :=
  map_weights (fun _ w => n_div N w t) self.

(** Every weight multiplied by the likelihood of its hypothesis. *)
Definition reweighted (N : Number) {Hypo Data : Type}
    (likelihood : Data -> Hypo -> num N) (data : Data)
    (self : dict Hypo (num N)) : dict Hypo (num N) :=
  map_weights (fun hypo w => n_mul N w (likelihood data hypo)) self.

(** A float that is a real number: neither an infinity nor NaN. *)
Definition finite (f : float) : bool :=
  match Prim2SF f with
  | S754_zero _ | S754_finite _ _ _ => true
  | _ => false
  end.

(** [|f - g| <= tol] for two floats. *)
Definition close (tol : Q) (f g : float) : bool :=
  match float_to_Q g with
  | Some q => close_to tol f q
  | None => false
  end.

(** Same keys, and weights within [tol] of each other. *)
Definition pmf_close {K} `{EqKey K} (tol : Q) (d1 d2 : dict K float) : bool :=
  Nat.eqb (length d1) (length d2)
  && forallb (fun kv => match get d2 (fst kv) with
                        | Some w => close tol (snd kv) w
                        | None => false
                        end) d1.

(** The weights are within [tol] of the given rationals, hypothesis by
    hypothesis. *)
Definition weights_close {K} `{EqKey K} (tol : Q) (d : dict K float)
    (expected : list (K * Q)) : bool :=
  forallb (fun kq => match get d (fst kq) with
                     | Some w => close_to tol w (snd kq)
                     | None => false
                     end) expected.

(** All the orders in which a dict may iterate over the same keys. *)
Fixpoint insert_all {A} (x : A) (l : list A) : list (list A) :=
  match l with
  | [] => [[x]]
  | y :: l' => (x :: l) :: map (cons y) (insert_all x l')
  end.

Fixpoint perms {A} (l : list A) : list (list A) :=
  match l with
  | [] => [[]]
  | x :: l' => flat_map (insert_all x) (perms l')
  end.

(** The dice problem of the notebook, with the Suite iterating over its
    five hypotheses in the order [order]: after a roll of 6 the weights
    are within 1e-6 of 0, 20/51, 15/51, 10/51, 6/51 (and that of d4 is the
    float 0); after a further roll of 8 they are within 1e-6 of
    0, 0, 225/361, 100/361, 36/361 and within 5e-5 of the four-digit values
    0.6233, 0.2770, 0.0997 (and those of d4 and d6 are the float 0). *)
Definition dice_posteriors_ok (order : list ref) : bool :=
  let like := DiceSuite_likelihood binary64 (dice binary64) in
  match bayesian_update binary64 like (DiceSuite binary64 order) 6 with
  | Raises _ _ => false
  | Returns after6 =>
      weights_close (1 # 1000000) after6
        [(0%nat, 0%Q); (1%nat, 20 # 51); (2%nat, 15 # 51);
         (3%nat, 10 # 51); (4%nat, 6 # 51)]
      && weights_close (5 # 100000) after6
        [(1%nat, 3922 # 10000); (2%nat, 2941 # 10000);
         (3%nat, 1961 # 10000); (4%nat, 1176 # 10000)]
      && weights_close 0 after6 [(0%nat, 0%Q)]
      && match bayesian_update binary64 like after6 8 with
         | Raises _ _ => false
         | Returns after8 =>
             weights_close (1 # 1000000) after8
               [(0%nat, 0%Q); (1%nat, 0%Q); (2%nat, 225 # 361);
                (3%nat, 100 # 361); (4%nat, 36 # 361)]
             && weights_close (5 # 100000) after8
               [(2%nat, 6233 # 10000); (3%nat, 2770 # 10000);
                (4%nat, 997 # 10000)]
             && weights_close 0 after8 [(0%nat, 0%Q); (1%nat, 0%Q)]
         end
  end.

(** For a roll [data] of a die, [hypo[data]] is 1/sides (to 1e-15) if
    [data <= sides] and 0 otherwise. *)
Definition dice_likelihood_ok (data : Z) : bool :=
  forallb
    (fun hs : ref * Z =>
       let like := DiceSuite_likelihood binary64 (dice binary64) data (fst hs) in
       if data <=? snd hs
       then match float_to_Q like with
            | Some q => Qle_bool (Qabs (q - (1 # Z.to_pos (snd hs)))) (1 # 10 ^ 15)
            | None => false
            end
       else PrimFloat.eqb like 0%float)
    [(0%nat, 4); (1%nat, 6); (2%nat, 8); (3%nat, 12); (4%nat, 20)].


(** The pairs of entries of [p] and [q], in the order in which [__add__]
    visits them, each as the key [key1 + key2] and the product
    [prob1 * prob2]. *)
Definition products (N : Number) {K : Type} (key_add : K -> K -> K)
    (p q : dict K (num N)) : list (K * num N) :=
  map (fun pr => (key_add (fst (fst pr)) (fst (snd pr)),
                  n_mul N (snd (fst pr)) (snd (snd pr))))
      (list_prod p q).

(** The products accumulated at the key [k], in the order in which they
    are added. *)
Definition terms_at (N : Number) {K : Type} `{EqKey K} (key_add : K -> K -> K)
    (p q : dict K (num N)) (k : K) : list (num N) :=
  map snd (filter (fun t => keqb (fst t) k) (products N key_add p q)).

(** [pmf[key] += w] on the contents of [pmf]. *)
Definition accumulate (N : Number) {K : Type} `{EqKey K}
    (d : dict K (num N)) (t : K * num N) : dict K (num N) :=
  setitem d (fst t) (n_add N (weight_of N d (fst t)) (snd t)).


(** A finite sum of rationals. *)
Definition ssum {A : Type} (f : A -> Qc) (l : list A) : Qc :=
  fold_right (fun a s => f a + s)%Qc 0%Qc l.

(** The sum of the weights of [d], each multiplied by a factor that
    depends on its key. *)
Definition dot {K : Type} (F : K -> Qc) (d : dict K Qc) : Qc :=
  ssum (fun kv => snd kv * F (fst kv))%Qc d.

(** The fair six-sided die of the notebook. *)
Definition d6 : dict Z float := state_of (make_die binary64 6).

(** Every weight is a positive real number. *)
Definition all_positive {K} (d : dict K float) : bool :=
  forallb (fun kv => match float_to_Q (snd kv) with
                     | Some q => negb (Qle_bool q 0)
                     | None => false
                     end) d.

(** The sum of the weights read as rationals, when they are all finite. *)
Fixpoint rational_total {K} (d : dict K float) : option Q :=
  match d with
  | [] => Some 0%Q
  | (_, w) :: d' =>
      match float_to_Q w, rational_total d' with
      | Some q, Some s => Some (q + s)%Q
      | _, _ => None
      end
  end.

(** [d6 + d6]: support 2 to 12, P(7) = 6/36, P(2) = P(12) = 1/36 and
    total 1, all within 1e-9. *)
Definition two_dice_ok (two : dict Z float) : bool :=
  (if list_eq_dec Z.eq_dec (keys two) (range 2 13) then true else false)
  && all_positive two
  && weights_close (1 # 10 ^ 9) two [(7, 6 # 36); (2, 1 # 36); (12, 1 # 36)]
  && close_to (1 # 10 ^ 9) (total binary64 two) 1
  && match rational_total two with
     | Some s => Qle_bool (Qabs (s - 1)) (1 # 10 ^ 9)
     | None => false
     end.



(** ** The outputs recorded in the notebook *)

(** [print(d6)] *)
#[warnings="-inexact-float"]
Definition printed_d6 : dict Z float :=
  map (fun key => (key, 0.16666666666666666%float)) (range 1 7).

(** [for key, prob in d6_twice.items(): print(key, prob)] *)
#[warnings="-inexact-float"]
Definition printed_d6_twice : dict Z float :=
  [(2, 0.027777777777777776%float); (3, 0.05555555555555555%float);
   (4, 0.08333333333333333%float); (5, 0.1111111111111111%float);
   (6, 0.1388888888888889%float); (7, 0.16666666666666669%float);
   (8, 0.1388888888888889%float); (9, 0.1111111111111111%float);
   (10, 0.08333333333333333%float); (11, 0.05555555555555555%float);
   (12, 0.027777777777777776%float)].

(** [print(dice)] *)
#[warnings="-inexact-float"]
Definition printed_dice : list (dict Z float) :=
  map (fun sw => map (fun key => (key, snd sw)) (range 1 (fst sw + 1)))
      [(4, 0.25%float); (6, 0.16666666666666666%float); (8, 0.125%float);
       (12, 0.08333333333333333%float); (20, 0.05%float)].

(** [print die.name, prob] after the two updates: twelve significant
    digits each. *)
Definition printed_after_6 : list (ref * Q) :=
  [(0%nat, 0); (1%nat, 392156862745 # 10 ^ 12); (2%nat, 294117647059 # 10 ^ 12);
   (3%nat, 196078431373 # 10 ^ 12); (4%nat, 117647058824 # 10 ^ 12)]%Q.

Definition printed_after_8 : list (ref * Q) :=
  [(0%nat, 0); (1%nat, 0); (2%nat, 623268698061 # 10 ^ 12);
   (3%nat, 277008310249 # 10 ^ 12); (4%nat, 997229916898 # 10 ^ 13)]%Q.

(** ** Rounding in binary64

    The vocabulary of the error analysis of [Pmf.normalize]: floats are
    read as rationals, and the rounding performed by the operations of
    [SpecFloat] is followed through its round and sticky bits. *)

(** Powers of two as rationals. *)
Definition pow2 (e : Z) : Q := Qpower 2 e.

(** Where the real number [x] lies with respect to the integer
    [shr_m mrs], as recorded by the round and sticky bits of [mrs]: on the
    integer, strictly below the midpoint to the next integer, on the
    midpoint, or strictly above it. *)
Definition located (mrs : shr_record) (x : Q) : Prop :=
  match shr_r mrs, shr_s mrs with
  | false, false => x == inject_Z (shr_m mrs)
  | false, true => inject_Z (shr_m mrs) < x /\ x < inject_Z (shr_m mrs) + (1 # 2)
  | true, false => x == inject_Z (shr_m mrs) + (1 # 2)
  | true, true => inject_Z (shr_m mrs) + (1 # 2) < x /\ x < inject_Z (shr_m mrs) + 1
  end%Q.

(** [float_to_Q] on the specification side. *)
Definition SF_to_Q (x : spec_float) : option Q :=
  match x with
  | S754_zero _ => Some 0%Q
  | S754_finite s m e =>
      Some (inject_Z (if s then Zneg m else Zpos m) * Qpower 2 e)%Q
  | _ => None
  end.

Definition SF_nonneg (x : spec_float) : bool :=
  match x with
  | S754_zero _ | S754_finite false _ _ => true
  | _ => false
  end.

(** A float that is a zero or a positive real number. *)
Definition nonneg (f : float) : bool := SF_nonneg (Prim2SF f).

(** [0.0 <= w]: a zero, a positive real number or [+inf]; not NaN. *)
Definition nonnegative (w : float) : bool := PrimFloat.leb 0 w.

(** The real number a finite float stands for. *)
Definition Qof (f : float) : Q :=
  match float_to_Q f with Some q => q | None => 0%Q end.

(** [+inf] *)
Definition is_pinf (f : float) : Prop := Prim2SF f = S754_infinity false.

(** The exact sum of a list of floats. *)
Definition qsum (l : list float) : Q :=
  fold_right (fun w s => (Qof w + s)%Q) 0%Q l.

Definition all_nonneg (l : list float) : Prop :=
  Forall (fun w => nonneg w = true) l.

(** The length of a list, as a rational. *)
Definition qlen {A} (l : list A) : Q := inject_Z (Z.of_nat (length l)).

(** The Pmf [{0: first, 1: rest, ..., n: rest}], of [n + 1] entries. *)
Definition loaded_pmf (first rest : float) (n : nat) : dict Z float :=
  (0, first) :: map (fun i => (Z.of_nat i, rest)) (seq 1 n).

(** * Part III: properties *)

(** The keys of a dict given by extension are pairwise distinct. *)
Ltac distinct_keys := repeat constructor; simpl; intuition discriminate.

(** ** Keys and dicts *)

Lemma keqb_refl {K} `{EqKey K} (a : K) : keqb a a = true.
Proof. now apply keqb_eq. Qed.

Lemma keqb_neq {K} `{EqKey K} (a b : K) : keqb a b = false <-> a <> b.
Proof.
  split.
  - intros E Hab. apply keqb_eq in Hab. congruence.
  - intros N. destruct (keqb a b) eqn:E; [|reflexivity].
    apply keqb_eq in E. contradiction.
Qed.

Lemma keqb_sym {K} `{EqKey K} (a b : K) : keqb a b = keqb b a.
Proof.
  destruct (keqb a b) eqn:E.
  - apply keqb_eq in E. subst. symmetry. apply keqb_refl.
  - symmetry. apply keqb_neq. apply keqb_neq in E. congruence.
Qed.

Section DictFacts.
Context {K V : Type} `{EqKey K}.
Implicit Type d : dict K V.

Lemma get_setitem d k v k' :
  get (setitem d k v) k' = if keqb k k' then Some v else get d k'.
Proof.
  induction d as [|[a w] d IH]; simpl.
  - reflexivity.
  - destruct (keqb a k) eqn:E; simpl.
    + apply keqb_eq in E. subst a. destruct (keqb k k'); reflexivity.
    + destruct (keqb a k') eqn:E'.
      * apply keqb_eq in E'. subst k'. rewrite keqb_sym, E. reflexivity.
      * apply IH.
Qed.

Lemma get_None d k : get d k = None <-> ~ In k (keys d).
Proof.
  induction d as [|[a w] d IH]; simpl.
  - tauto.
  - destruct (keqb a k) eqn:E.
    + apply keqb_eq in E. split; [discriminate | tauto].
    + apply keqb_neq in E. tauto.
Qed.

Lemma get_Some_In d k v : get d k = Some v -> In (k, v) d.
Proof.
  induction d as [|[a w] d IH]; simpl; [discriminate|].
  destruct (keqb a k) eqn:E.
  - apply keqb_eq in E. intros [= ->]. subst. now left.
  - intros G. right. now apply IH.
Qed.

Lemma In_keys d k v : In (k, v) d -> In k (keys d).
Proof. intros I. change k with (fst (k, v)). now apply in_map. Qed.

Lemma In_get d k v : NoDup (keys d) -> In (k, v) d -> get d k = Some v.
Proof.
  induction d as [|[a w] d IH]; simpl; [tauto|].
  intros ND [E|I]; inversion ND as [|? ? Na ND']; subst.
  - inversion E; subst. now rewrite keqb_refl.
  - destruct (keqb a k) eqn:E.
    + apply keqb_eq in E. subst a. exfalso. apply Na. eapply In_keys, I.
    + now apply IH.
Qed.

Lemma In_keys_get d k : In k (keys d) -> exists v, get d k = Some v.
Proof.
  intros I. destruct (get d k) eqn:G; [eauto|].
  apply get_None in G. contradiction.
Qed.

Lemma keys_setitem_In d k v : In k (keys d) -> keys (setitem d k v) = keys d.
Proof.
  induction d as [|[a w] d IH]; simpl; [tauto|].
  destruct (keqb a k) eqn:E; simpl.
  - reflexivity.
  - apply keqb_neq in E. intros [->|I]; [contradiction|]. now rewrite IH.
Qed.

Lemma keys_setitem_notIn d k v :
  ~ In k (keys d) -> keys (setitem d k v) = keys d ++ [k].
Proof.
  induction d as [|[a w] d IH]; simpl; [reflexivity|].
  destruct (keqb a k) eqn:E; simpl.
  - apply keqb_eq in E. tauto.
  - intros N. rewrite IH; tauto.
Qed.

Lemma In_keys_setitem d k v x :
  In x (keys (setitem d k v)) <-> x = k \/ In x (keys d).
Proof.
  destruct (in_dec key_dec k (keys d)) as [I|N].
  - rewrite keys_setitem_In by exact I. split; [tauto|]. intros [->|]; tauto.
  - rewrite keys_setitem_notIn by exact N.
    rewrite in_app_iff. simpl. intuition congruence.
Qed.

Lemma NoDup_keys_setitem d k v :
  NoDup (keys d) -> NoDup (keys (setitem d k v)).
Proof.
  induction d as [|[a w] d IH]; simpl.
  - intros _. constructor; [tauto | constructor].
  - intros ND. inversion ND as [|? ? Na ND']; subst.
    destruct (keqb a k) eqn:E; simpl.
    + exact ND.
    + constructor; [|now apply IH].
      rewrite In_keys_setitem. apply keqb_neq in E. intuition congruence.
Qed.

(** Dict equality is agreement of [get] on every key, a missing key being
    different from a stored one. *)
Lemma dict_eq_get (veqb : V -> V -> bool) d1 d2 :
  (forall a b, veqb a b = true <-> a = b) ->
  NoDup (keys d1) -> NoDup (keys d2) ->
  (dict_eq veqb d1 d2 = true <-> forall k, get d1 k = get d2 k).
Proof.
  intros Hv ND1 ND2. unfold dict_eq.
  rewrite andb_true_iff, Nat.eqb_eq, forallb_forall. split.
  - intros [L A] k.
    assert (Sub : incl (keys d1) (keys d2)).
    { intros x I. apply In_keys_get in I as [v G]. apply get_Some_In in G.
      specialize (A _ G). simpl in A. destruct (get d2 x) eqn:G2; [|discriminate].
      apply get_Some_In in G2. eapply In_keys, G2. }
    assert (Sup : incl (keys d2) (keys d1)).
    { apply NoDup_length_incl; [exact ND1| |exact Sub].
      unfold keys. rewrite !length_map. lia. }
    destruct (get d1 k) eqn:G1.
    + apply get_Some_In in G1. specialize (A _ G1). simpl in A.
      destruct (get d2 k); [|discriminate]. apply Hv in A. now subst.
    + symmetry. apply get_None. intros I. apply Sup in I.
      apply get_None in G1. contradiction.
  - intros E. split.
    + assert (P : Permutation (keys d1) (keys d2)).
      { apply NoDup_Permutation; [assumption..|]. intros x.
        split; intros I; apply In_keys_get in I as [v G].
        - rewrite E in G. apply get_Some_In in G. eapply In_keys, G.
        - rewrite <- E in G. apply get_Some_In in G. eapply In_keys, G. }
      apply Permutation_length in P. unfold keys in P.
      now rewrite !length_map in P.
    + intros [k v] I. simpl. apply In_get in I; [|exact ND1].
      rewrite <- E, I. now apply Hv.
Qed.
End DictFacts.

(** ** Counters *)

Section CounterFacts.
Context {K V : Type} `{EqKey K}.
Variables (zero one : V) (add : V -> V -> V).
Implicit Type c : dict K V.

Lemma getitem_eq c k :
  getitem zero c k = match get c k with Some v => v | None => zero end.
Proof. unfold getitem, getitem_st. now destruct (get c k). Qed.


Lemma getitem_st_eq c k : getitem_st zero c k = (getitem zero c k, c).
Proof. unfold getitem, getitem_st. now destruct (get c k). Qed.

Lemma getitem_setitem c k v k' :
  getitem zero (setitem c k v) k' = if keqb k k' then v else getitem zero c k'.
Proof.
  rewrite !getitem_eq, get_setitem. now destruct (keqb k k').
Qed.

Lemma NoDup_keys_update c xs :
  NoDup (keys c) -> NoDup (keys (update zero one add c xs)).
Proof.
  revert c. induction xs as [|x xs IH]; simpl; intros c ND; [exact ND|].
  apply IH. now apply NoDup_keys_setitem.
Qed.

Lemma NoDup_keys_Counter xs : NoDup (keys (Counter zero one add xs)).
Proof. apply NoDup_keys_update. constructor. Qed.


End CounterFacts.

Lemma occ_nonneg {K} `{EqKey K} (x : K) l : 0 <= occ x l.
Proof. unfold occ. lia. Qed.

Lemma occ_cons {K} `{EqKey K} (x a : K) l :
  occ x (a :: l) = (if keqb a x then 1 else 0) + occ x l.
Proof.
  unfold occ. simpl. destruct (key_dec a x) as [E|N].
  - subst. rewrite keqb_refl. lia.
  - apply keqb_neq in N. rewrite N. lia.
Qed.


Lemma get_update_int {K} `{EqKey K} (xs : list K) (c : dict K Z) (x : K) :
  get (update 0 1 Z.add c xs) x =
  if occ x xs =? 0 then get c x else Some (getitem 0 c x + occ x xs).
Proof.
  revert c. induction xs as [|a xs IH]; intros c.
  - reflexivity.
  - simpl. rewrite IH, occ_cons, get_setitem, getitem_setitem, getitem_eq.
    pose proof (occ_nonneg x xs) as P.
    destruct (keqb a x) eqn:E.
    + apply keqb_eq in E. subst a.
      destruct (occ x xs =? 0) eqn:Z0.
      * apply Z.eqb_eq in Z0. rewrite Z0.
        replace (1 + 0 =? 0) with false by reflexivity. f_equal; lia.
      * apply Z.eqb_neq in Z0.
        destruct (1 + occ x xs =? 0) eqn:Z1; [apply Z.eqb_eq in Z1; lia|].
        f_equal; lia.
    + simpl. destruct (occ x xs =? 0); reflexivity.
Qed.

Lemma get_IntCounter {K} `{EqKey K} (xs : list K) (x : K) :
  get (IntCounter xs) x = if occ x xs =? 0 then None else Some (occ x xs).
Proof.
  unfold IntCounter, Counter. rewrite get_update_int. simpl.
  destruct (occ x xs =? 0); reflexivity.
Qed.

Lemma getitem_IntCounter {K} `{EqKey K} (xs : list K) (x : K) :
  getitem 0 (IntCounter xs) x = occ x xs.
Proof.
  rewrite getitem_eq, get_IntCounter.
  destruct (occ x xs =? 0) eqn:E; [apply Z.eqb_eq in E; lia | reflexivity].
Qed.

Lemma In_IntCounter {K} `{EqKey K} (xs : list K) (x : K) (n : Z) :
  In (x, n) (IntCounter xs) <-> n = occ x xs /\ 0 < n.
Proof.
  pose proof (occ_nonneg x xs) as P. split.
  - intros I. apply In_get in I; [|apply NoDup_keys_Counter].
    rewrite get_IntCounter in I.
    destruct (occ x xs =? 0) eqn:E; [discriminate|].
    apply Z.eqb_neq in E. inversion I. lia.
  - intros [-> Pos]. apply get_Some_In. rewrite get_IntCounter.
    destruct (occ x xs =? 0) eqn:E; [apply Z.eqb_eq in E; lia | reflexivity].
Qed.

(** ** Anagrams *)

Lemma is_anagram_occ {K} `{EqKey K} (a b : list K) :
  is_anagram a b = true <-> forall x, occ x a = occ x b.
Proof.
  unfold is_anagram.
  rewrite (dict_eq_get Z.eqb (IntCounter a) (IntCounter b) Z.eqb_eq)
    by apply NoDup_keys_Counter.
  split; intros E x; specialize (E x).
  - rewrite !get_IntCounter in E.
    destruct (occ x a =? 0) eqn:Ea, (occ x b =? 0) eqn:Eb;
      try discriminate; [|congruence].
    apply Z.eqb_eq in Ea, Eb. congruence.
  - rewrite !get_IntCounter, E. reflexivity.
Qed.

(** C8, as stated, fails: a Counter holding a key with weight 0 has the
    same weight as the empty Counter at every value, and the two are not
    equal. *)
Lemma Counter_eq_zero_entry_counterexample :
  let c1 : dict ascii Z := [("a"%char, 0)] in
  let c2 : dict ascii Z := [] in
  (forall value, getitem 0 c1 value = getitem 0 c2 value)
  /\ dict_eq Z.eqb c1 c2 = false.
Proof.
  split; [|reflexivity].
  intros value. rewrite !getitem_eq. cbn [get].
  destruct (keqb "a"%char value); reflexivity.
Qed.

(** C8 (amended): Counter equality is the equality of dicts: two Counters
    are equal iff they hold the same keys with the same weights, a key
    stored with weight 0 being different from an absent key.  A Counter
    built from a sequence stores no zero weight, so [is_anagram a b] is
    true iff every value has the same weight in both induced Counters
    (absent counting as 0), that is iff every value occurs as often in [a]
    as in [b], that is iff [b] is a rearrangement of [a]; it is true for
    "tachymetric"/"mccarthyite" and false for "banana"/"peach". *)
Theorem is_anagram_spec :
  (forall (K : Type) (EK : EqKey K) (c1 c2 : dict K Z),
      NoDup (keys c1) -> NoDup (keys c2) ->
      (dict_eq Z.eqb c1 c2 = true <-> forall k, get c1 k = get c2 k))
  /\ (forall (K : Type) (EK : EqKey K) (a b : list K),
         (is_anagram a b = true <->
          forall x, getitem 0 (IntCounter a) x = getitem 0 (IntCounter b) x)
         /\ (is_anagram a b = true <-> forall x, occ x a = occ x b)
         /\ (is_anagram a b = true <-> Permutation a b))
  /\ is_anagram (chars "tachymetric") (chars "mccarthyite") = true
  /\ is_anagram (chars "banana") (chars "peach") = false.
Proof.
  split; [|split; [|split; reflexivity]].
  - intros K EK c1 c2. apply dict_eq_get. apply Z.eqb_eq.
  - intros K EK a b. split; [|split].
    + rewrite is_anagram_occ.
      split; intros E x; specialize (E x);
        now rewrite ?getitem_IntCounter in *.
    + apply is_anagram_occ.
    + rewrite is_anagram_occ, (Permutation_count_occ key_dec).
      unfold occ. split; intros E x; specialize (E x); lia.
Qed.

Lemma is_anagram_spec_witness :
  let c1 : dict ascii Z := [("a"%char, 1); ("b"%char, 2)] in
  let c2 : dict ascii Z := [("b"%char, 2); ("a"%char, 1)] in
  dict_eq Z.eqb c1 c2 = true <-> forall k, get c1 k = get c2 k.
Proof.
  apply (proj1 is_anagram_spec ascii EqKey_ascii).
  - distinct_keys.
  - distinct_keys.
Defined.

(** ** Multisets *)

Section MultisetFacts.
Context {K : Type} `{EqKey K}.

Lemma is_subset_loop_eq (its : list (K * Z)) (other : dict K Z) :
  is_subset_loop its other =
  (forallb (fun kc => negb (getitem 0 other (fst kc) <? snd kc)) its, other).
Proof.
  induction its as [|[char count] rest IH]; simpl; [reflexivity|].
  rewrite getitem_st_eq.
  destruct (getitem 0 other char <? count); simpl; [reflexivity|apply IH].
Qed.

Lemma getitem_nonneg (other : dict K Z) (k : K) :
  (forall value n, In (value, n) other -> 0 <= n) -> 0 <= getitem 0 other k.
Proof.
  intros NN. rewrite getitem_eq. destruct (get other k) eqn:G; [|lia].
  apply get_Some_In in G. eapply NN, G.
Qed.

Lemma is_subset_true (self other : dict K Z) :
  fst (is_subset self other) = true <->
  forall value count, In (value, count) self -> count <= getitem 0 other value.
Proof.
  unfold is_subset, items. rewrite is_subset_loop_eq. simpl.
  rewrite forallb_forall. split.
  - intros A value count I. specialize (A _ I). simpl in A.
    apply negb_true_iff, Z.ltb_ge in A. exact A.
  - intros A [value count] I. simpl. apply negb_true_iff, Z.ltb_ge.
    now apply A.
Qed.
End MultisetFacts.

Lemma can_spell_occ (word tiles : string) :
  can_spell word tiles = true <->
  forall letter, occ letter (chars word) <= occ letter (chars tiles).
Proof.
  unfold can_spell, Multiset_le, Multiset. rewrite is_subset_true. split.
  - intros A letter. pose proof (occ_nonneg letter (chars word)) as P.
    pose proof (occ_nonneg letter (chars tiles)) as Q.
    destruct (Z.eq_dec (occ letter (chars word)) 0) as [->|NZ]; [exact Q|].
    rewrite <- (getitem_IntCounter (chars tiles)). apply A.
    apply In_IntCounter. lia.
  - intros A letter count I. apply In_IntCounter in I as [-> _].
    rewrite getitem_IntCounter. apply A.
Qed.

(** C7: on multisets ([other] holds no negative multiplicity),
    [is_subset self other] is true iff every entry [(value, count)] of
    [self] with [count > 0] has [other[value] >= count], an absent value
    weighing 0; it is true for an empty [self]; it leaves [other] as it
    was; and [can_spell word tiles] is true iff every letter occurs in
    [tiles] at least as often as in [word], as for "SYZYGY" and
    "AGSYYYZ". *)
Theorem is_subset_spec :
  (forall (K : Type) (EK : EqKey K) (self other : dict K Z),
      (forall value n, In (value, n) other -> 0 <= n) ->
      (fst (is_subset self other) = true <->
       forall value count,
         In (value, count) (items self) -> 0 < count ->
         getitem 0 other value >= count)
      /\ fst (is_subset [] other) = true
      /\ snd (is_subset self other) = other)
  /\ (forall word tiles : string,
         can_spell word tiles = true <->
         forall letter, occ letter (chars word) <= occ letter (chars tiles))
  /\ can_spell "SYZYGY" "AGSYYYZ" = true.
Proof.
  split; [|split; [apply can_spell_occ | reflexivity]].
  intros K EK self other NN. split; [|split].
  - rewrite is_subset_true. unfold items. split.
    + intros A value count I _. apply Z.le_ge. now apply A.
    + intros A value count I.
      destruct (Z_lt_le_dec 0 count) as [P|NP].
      * apply Z.ge_le. now apply A.
      * pose proof (getitem_nonneg other value NN). lia.
  - reflexivity.
  - unfold is_subset. now rewrite is_subset_loop_eq.
Qed.

Lemma is_subset_spec_witness :
  let self : dict ascii Z := Multiset (chars "SYZYGY") in
  let other : dict ascii Z := Multiset (chars "AGSYYYZ") in
  (fst (is_subset self other) = true <->
   forall value count,
     In (value, count) (items self) -> 0 < count ->
     getitem 0 other value >= count)
  /\ fst (is_subset [] other) = true
  /\ snd (is_subset self other) = other.
Proof.
  apply (proj1 is_subset_spec ascii EqKey_ascii).
  intros value n I. apply In_IntCounter in I. lia.
Defined.

(** ** In-place loops over the keys of a dict *)

Section LoopFacts.
Context {K V : Type} `{EqKey K}.
Variable zero : V.
Implicit Type d : dict K V.

Lemma get_app_notIn d1 d2 k :
  ~ In k (keys d1) -> get (d1 ++ d2) k = get d2 k.
Proof.
  induction d1 as [|[a w] d1 IH]; simpl; [reflexivity|].
  intros N. destruct (keqb a k) eqn:E.
  - apply keqb_eq in E. tauto.
  - apply IH. tauto.
Qed.

Lemma setitem_app_notIn d1 d2 k v :
  ~ In k (keys d1) -> setitem (d1 ++ d2) k v = d1 ++ setitem d2 k v.
Proof.
  induction d1 as [|[a w] d1 IH]; simpl; [reflexivity|].
  intros N. destruct (keqb a k) eqn:E.
  - apply keqb_eq in E. tauto.
  - rewrite IH; tauto.
Qed.

Lemma keys_map_weights g d : keys (map_weights g d) = keys d.
Proof. unfold keys, map_weights. rewrite map_map. reflexivity. Qed.

Lemma map_weights_id (g : K -> V -> V) d :
  (forall k w, g k w = w) -> map_weights g d = d.
Proof.
  intros E. unfold map_weights. induction d as [|[k w] d IH]; simpl.
  - reflexivity.
  - now rewrite IH, E.
Qed.

Lemma rewrite_all_app g (done rest : dict K V) :
  NoDup (keys (done ++ rest)) ->
  rewrite_all zero g (keys rest) (done ++ rest) = done ++ map_weights g rest.
Proof.
  revert done. induction rest as [|[k w] rest IH]; intros done ND.
  - reflexivity.
  - simpl. rewrite getitem_eq.
    assert (Nk : ~ In k (keys done)).
    { unfold keys in ND. rewrite map_app in ND. simpl in ND.
      apply NoDup_remove_2 in ND. rewrite in_app_iff in ND. tauto. }
    rewrite get_app_notIn by exact Nk. simpl. rewrite keqb_refl.
    rewrite setitem_app_notIn by exact Nk. simpl. rewrite keqb_refl.
    change (done ++ (k, g k w) :: rest) with (done ++ [(k, g k w)] ++ rest).
    rewrite app_assoc.
    change (rewrite_all zero g (keys rest) ((done ++ [(k, g k w)]) ++ rest) =
            done ++ (k, g k w) :: map_weights g rest).
    rewrite IH.
    + rewrite <- app_assoc. reflexivity.
    + unfold keys in *. rewrite <- app_assoc. rewrite !map_app in *.
      simpl in *. exact ND.
Qed.

Lemma rewrite_all_keys g d :
  NoDup (keys d) -> rewrite_all zero g (keys d) d = map_weights g d.
Proof. intros ND. apply (rewrite_all_app g [] d ND). Qed.
End LoopFacts.

(** ** Normalization *)

Section NormalizeFacts.
Variable N : Number.
Context {K : Type} `{EqKey K}.
Implicit Type self : dict K (num N).

Lemma normalize_loop_zero ks t self :
  n_is_zero N t = true -> ks <> [] ->
  normalize_loop N ks t self = Raises ZeroDivisionError self.
Proof.
  intros Z NE. destruct ks as [|k ks]; [congruence|].
  simpl. unfold truediv. now rewrite Z.
Qed.

Lemma normalize_loop_nonzero ks t self :
  n_is_zero N t = false ->
  normalize_loop N ks t self =
  Returns (rewrite_all (n_zero N) (fun _ w => n_div N w t) ks self).
Proof.
  intros NZ. revert self. induction ks as [|k ks IH]; intros self.
  - reflexivity.
  - simpl. unfold truediv. rewrite NZ. apply IH.
Qed.


Lemma normalize_zero self :
  self <> [] -> n_is_zero N (total N self) = true ->
  normalize N self = Raises ZeroDivisionError self.
Proof.
  intros NE Z. unfold normalize. apply normalize_loop_zero; [exact Z|].
  destruct self; [congruence | discriminate].
Qed.

Lemma normalize_nonzero self :
  NoDup (keys self) -> n_is_zero N (total N self) = false ->
  normalize N self = Returns (scaled N (total N self) self).
Proof.
  intros ND NZ. unfold normalize. rewrite normalize_loop_nonzero by exact NZ.
  now rewrite rewrite_all_keys.
Qed.

End NormalizeFacts.

(** ** Bayesian update *)

Section SuiteFacts.
Variable N : Number.
Context {Hypo Data : Type} `{EqKey Hypo}.
Variable likelihood : Data -> Hypo -> num N.
Implicit Type self : dict Hypo (num N).

Lemma update_loop_rewrite hypos data self :
  update_loop N likelihood hypos data self =
  rewrite_all (n_zero N) (fun hypo w => n_mul N w (likelihood data hypo))
    hypos self.
Proof.
  revert self. induction hypos as [|hypo rest IH]; intros self.
  - reflexivity.
  - simpl. apply IH.
Qed.

Lemma bayesian_update_eq self data :
  NoDup (keys self) ->
  bayesian_update N likelihood self data =
  normalize N (reweighted N likelihood data self).
Proof.
  intros ND. unfold bayesian_update.
  now rewrite update_loop_rewrite, rewrite_all_keys.
Qed.
End SuiteFacts.

(** ** Iteration orders *)

Lemma insert_all_In {A} (x : A) (a b : list A) :
  In (a ++ x :: b) (insert_all x (a ++ b)).
Proof.
  induction a as [|y a IH]; simpl.
  - destruct b; simpl; now left.
  - right. apply in_map. exact IH.
Qed.

Lemma perms_complete {A} (l l' : list A) : Permutation l l' -> In l' (perms l).
Proof.
  revert l'. induction l as [|x l IH]; intros l' P.
  - apply Permutation_nil in P. subst. now left.
  - assert (I : In x l') by (eapply Permutation_in; [exact P | now left]).
    apply in_split in I as (a & b & ->).
    apply Permutation_cons_app_inv in P.
    simpl. apply in_flat_map. exists (a ++ b). split.
    + now apply IH.
    + apply insert_all_In.
Qed.

(** ** Exact arithmetic *)

Lemma exact_is_zero (x : Qc) : n_is_zero exact x = true <-> x = 0%Qc.
Proof.
  simpl. split.
  - apply Qc_eq_bool_correct.
  - intros ->. unfold Qc_eq_bool. now destruct (Qc_eq_dec 0 0).
Qed.

Lemma exact_not_zero (x : Qc) : n_is_zero exact x = false <-> x <> 0%Qc.
Proof.
  rewrite <- exact_is_zero. destruct (n_is_zero exact x); intuition congruence.
Qed.

Lemma Qc_fold_scaled (t : Qc) (l : list Qc) (a : Qc) :
  fold_left Qcplus (map (fun w => w / t)%Qc l) (a / t)%Qc
  = (fold_left Qcplus l a / t)%Qc.
Proof.
  revert a. induction l as [|w l IH]; intros a; simpl; [reflexivity|].
  rewrite <- IH. f_equal. unfold Qcdiv. ring.
Qed.

Lemma exact_total_scaled {K} (t : Qc) (self : dict K Qc) :
  total exact (scaled exact t self) = (total exact self / t)%Qc.
Proof.
  unfold total, scaled, map_weights, values. rewrite map_map. simpl.
  rewrite <- Qc_fold_scaled, map_map.
  replace (0 / t)%Qc with 0%Qc by (unfold Qcdiv; ring). reflexivity.
Qed.

Lemma exact_normalize_total {K} `{EqKey K} (self : dict K Qc) :
  NoDup (keys self) -> total exact self <> 0%Qc ->
  normalize exact self = Returns (scaled exact (total exact self) self)
  /\ total exact (scaled exact (total exact self) self) = 1%Qc.
Proof.
  intros ND NZ. split.
  - apply normalize_nonzero; [exact ND|]. now apply exact_not_zero.
  - rewrite exact_total_scaled. unfold Qcdiv. now apply Qcmult_inv_r.
Qed.

Lemma scaled_one_exact {K} (self : dict K Qc) : scaled exact 1%Qc self = self.
Proof.
  apply map_weights_id. intros _ w. simpl. unfold Qcdiv. field. discriminate.
Qed.

(** ** Binary64 arithmetic *)

Lemma div_eucl_exact (a b : Z) : 0 < b -> Z.div_eucl (a * b) b = (a, 0).
Proof.
  intros Hb.
  pose proof (Z_div_mult a b ltac:(lia)) as D.
  pose proof (Z_mod_mult a b) as M.
  unfold Z.div, Z.modulo in D, M.
  destruct (Z.div_eucl (a * b) b) as [q r]. simpl in *. congruence.
Qed.

(** Division by 1.0 is exact: the quotient of a representable number by
    one needs no rounding. *)
Lemma SFdiv_one (s : bool) (m : positive) (e : Z) :
  bounded prec emax m e = true ->
  SFdiv prec emax (S754_finite s m e) (S754_finite false 4503599627370496 (-52))
  = S754_finite s m e.
Proof.
  unfold bounded, canonical_mantissa, fexp, SpecFloat.emin.
  change prec with 53. change emax with 1024.
  rewrite andb_true_iff, Z.eqb_eq, Z.leb_le. intros [C B].
  set (d := Z.pos (digits2_pos m)) in *.
  assert (Hd : 0 < d) by (unfold d; lia).
  unfold SFdiv, SFdiv_core_binary.
  change (Zdigits2 (Z.pos m)) with d.
  change (Zdigits2 4503599627370496) with 53.
  unfold fexp, SpecFloat.emin.
  rewrite xorb_false_r.
  destruct (Z_lt_le_dec (-1074) e) as [Hn|Hs].
  - (* a normal number above the smallest exponent: 53 digits *)
    assert (d = 53) by lia.
    replace (Z.min (Z.max (d + e - (53 + -52) - 53) (3 - 1024 - 53)) (e - -52))
      with (e - 1) by lia.
    replace (e - -52 - (e - 1)) with 53 by lia.
    cbv iota beta.
    rewrite Z.shiftl_mul_pow2 by lia.
    replace (Z.pos m * 2 ^ 53) with (Z.pos m~0 * 4503599627370496) by lia.
    rewrite div_eucl_exact by lia.
    change (new_location 4503599627370496 0) with loc_Exact.
    unfold binary_round_aux, shr_fexp, fexp, SpecFloat.emin.
    change (Zdigits2 (Z.pos m~0)) with (Z.pos (Pos.succ (digits2_pos m))).
    rewrite Pos2Z.inj_succ. fold d.
    replace (Z.max (Z.succ d + (e - 1) - 53) (3 - 1024 - 53) - (e - 1))
      with 1 by lia.
    cbn [shr shr_record_of_loc iter_pos shr_1 shr_m shr_r shr_s orb
         loc_of_shr_record round_nearest_even].
    change (Zdigits2 (Z.pos m)) with d.
    replace (e - 1 + 1) with e by lia.
    replace (Z.max (d + e - 53) (3 - 1024 - 53) - e) with 0 by lia.
    cbn [shr shr_record_of_loc shr_m].
    destruct (e <=? 1024 - 53) eqn:L; [reflexivity|]. apply Z.leb_gt in L. lia.
  - (* the smallest exponent: the quotient has the same exponent *)
    assert (e = -1074) by lia. subst e.
    replace (Z.min (Z.max (d + -1074 - (53 + -52) - 53) (3 - 1024 - 53))
               (-1074 - -52)) with (-1074) by lia.
    change (-1074 - -52 - -1074) with 52.
    cbv iota beta.
    rewrite Z.shiftl_mul_pow2 by lia.
    change (2 ^ 52) with 4503599627370496.
    rewrite div_eucl_exact by lia.
    change (new_location 4503599627370496 0) with loc_Exact.
    unfold binary_round_aux, shr_fexp, fexp, SpecFloat.emin.
    change (Zdigits2 (Z.pos m)) with d.
    replace (Z.max (d + -1074 - 53) (3 - 1024 - 53) - -1074) with 0 by lia.
    cbn [shr shr_record_of_loc iter_pos shr_1 shr_m shr_r shr_s orb
         loc_of_shr_record round_nearest_even].
    change (Zdigits2 (Z.pos m)) with d.
    replace (Z.max (d + -1074 - 53) (3 - 1024 - 53) - -1074) with 0 by lia.
    cbn [shr shr_record_of_loc shr_m]. reflexivity.
Qed.

Lemma float_div_one (x : float) : (x / 1)%float = x.
Proof.
  apply Prim2SF_inj. rewrite div_spec.
  pose proof (Prim2SF_valid x) as V.
  change (Prim2SF 1) with (S754_finite false 4503599627370496 (-52)).
  destruct (Prim2SF x) as [s|s| |s m e]; simpl in V |- *.
  - now rewrite xorb_false_r.
  - now rewrite xorb_false_r.
  - reflexivity.
  - now apply SFdiv_one.
Qed.

Lemma scaled_one_binary64 {K} (self : dict K float) :
  scaled binary64 1%float self = self.
Proof. apply map_weights_id. intros _ w. apply float_div_one. Qed.

Lemma float_is_zero (x : float) :
  n_is_zero binary64 x = true <-> exists s, Prim2SF x = S754_zero s.
Proof.
  simpl. rewrite eqb_spec. change (Prim2SF 0) with (S754_zero false).
  destruct (Prim2SF x) as [s|s| |s m e]; unfold SFeqb; simpl.
  - split; eauto.
  - destruct s; split; try discriminate; intros [? ?]; discriminate.
  - split; try discriminate; intros [? ?]; discriminate.
  - destruct s; split; try discriminate; intros [? ?]; discriminate.
Qed.

Lemma float_mul_zero (w l : float) :
  finite w = true -> n_is_zero binary64 l = true ->
  n_is_zero binary64 (w * l)%float = true.
Proof.
  unfold finite. rewrite !float_is_zero. intros F [s E].
  rewrite mul_spec, E. unfold SF64mul.
  destruct (Prim2SF w) as [sw|sw| |sw m e]; try discriminate; simpl; eauto.
Qed.

Lemma float_add_zero (a b : float) :
  n_is_zero binary64 a = true -> n_is_zero binary64 b = true ->
  n_is_zero binary64 (a + b)%float = true.
Proof.
  rewrite !float_is_zero. intros [sa Ea] [sb Eb].
  rewrite add_spec, Ea, Eb. unfold SF64add. simpl.
  destruct sa, sb; eauto.
Qed.

Lemma float_fold_zero (l : list float) (a : float) :
  n_is_zero binary64 a = true ->
  (forall w, In w l -> n_is_zero binary64 w = true) ->
  n_is_zero binary64 (fold_left PrimFloat.add l a) = true.
Proof.
  revert a. induction l as [|w l IH]; intros a Za A; [exact Za|].
  cbn [fold_left]. apply IH.
  - apply float_add_zero; [exact Za|]. apply A. now left.
  - intros w' I. apply A. now right.
Qed.

Lemma float_total_zero {K} (self : dict K float) :
  (forall w, In w (values self) -> n_is_zero binary64 w = true) ->
  n_is_zero binary64 (total binary64 self) = true.
Proof. intros A. apply float_fold_zero; [reflexivity | exact A]. Qed.

Lemma Qc_fold_zero (l : list Qc) :
  (forall w, In w l -> w = 0%Qc) -> fold_left Qcplus l 0%Qc = 0%Qc.
Proof.
  induction l as [|w l IH]; intros A; [reflexivity|].
  cbn [fold_left]. rewrite (A w) by now left. rewrite Qcplus_0_l. apply IH.
  intros w' I. apply A. now right.
Qed.

Lemma exact_total_zero {K} (self : dict K Qc) :
  (forall w, In w (values self) -> w = 0%Qc) -> total exact self = 0%Qc.
Proof. apply Qc_fold_zero. Qed.


Lemma float_div_nan (x : float) : (x / nan)%float = nan.
Proof.
  apply Prim2SF_inj. rewrite div_spec.
  change (Prim2SF nan) with S754_nan.
  destruct (Prim2SF x); reflexivity.
Qed.

(** An infinity or NaN times a zero is NaN. *)
Lemma float_mul_nonfinite_zero (w l : float) :
  finite w = false -> n_is_zero binary64 l = true -> (w * l)%float = nan.
Proof.
  unfold finite. rewrite float_is_zero. intros F [s E].
  apply Prim2SF_inj. rewrite mul_spec, E. unfold SF64mul.
  change (Prim2SF nan) with S754_nan.
  destruct (Prim2SF w); try discriminate; reflexivity.
Qed.

Lemma float_add_nan_l (x : float) : (nan + x)%float = nan.
Proof.
  apply Prim2SF_inj. rewrite add_spec.
  change (Prim2SF nan) with S754_nan. reflexivity.
Qed.

Lemma float_add_nan_r (x : float) : (x + nan)%float = nan.
Proof.
  apply Prim2SF_inj. rewrite add_spec.
  change (Prim2SF nan) with S754_nan.
  destruct (Prim2SF x); reflexivity.
Qed.

Lemma float_fold_from_nan (l : list float) :
  fold_left PrimFloat.add l nan = nan.
Proof.
  induction l as [|w l IH]; [reflexivity|].
  cbn [fold_left]. now rewrite float_add_nan_l.
Qed.

(** A sum with a NaN term is NaN. *)
Lemma float_fold_nan (l : list float) (a : float) :
  In nan l -> fold_left PrimFloat.add l a = nan.
Proof.
  revert a. induction l as [|w l IH]; intros a I; [contradiction|].
  cbn [fold_left]. destruct I as [->|I].
  - rewrite float_add_nan_r. apply float_fold_from_nan.
  - now apply IH.
Qed.

(** ** Rounding errors of binary64 addition and division

    Every float operation is specified by [SpecFloat]; the lemmas below
    bound the distance between the result of an addition or a division of
    non-negative floats and the exact sum or quotient: a relative error of
    at most 2^-53, plus 2^-1075 when a quotient is subnormal, unless the
    operation overflows to [+inf]. *)

(** *** Powers of two and binary digits *)

Lemma pow2_pos e : (0 < pow2 e)%Q.
Proof. apply Qpower_0_lt. reflexivity. Qed.

Lemma pow2_add a b : (pow2 (a + b) == pow2 a * pow2 b)%Q.
Proof. apply Qpower_plus. discriminate. Qed.

Lemma pow2_le a b : a <= b -> (pow2 a <= pow2 b)%Q.
Proof. intros L. apply Qpower_le_compat_l; [exact L | discriminate]. Qed.

Lemma pow2_Z n : 0 <= n -> (pow2 n == inject_Z (2 ^ n))%Q.
Proof. intros P. unfold pow2. now rewrite Zpower_Qpower. Qed.

Lemma pow2_succ a : (pow2 (a + 1) == 2 * pow2 a)%Q.
Proof. rewrite pow2_add. change (pow2 1) with 2%Q. ring. Qed.

(** Number of binary digits *)
Lemma digits2_pos_bounds (p : positive) :
  2 ^ (Z.pos (digits2_pos p) - 1) <= Z.pos p < 2 ^ Z.pos (digits2_pos p).
Proof.
  induction p as [p IH|p IH|]; simpl digits2_pos.
  - rewrite Pos2Z.inj_succ.
    replace (Z.succ (Z.pos (digits2_pos p)) - 1) with (Z.succ (Z.pos (digits2_pos p) - 1)) by lia.
    rewrite !Z.pow_succ_r by lia. lia.
  - rewrite Pos2Z.inj_succ.
    replace (Z.succ (Z.pos (digits2_pos p)) - 1) with (Z.succ (Z.pos (digits2_pos p) - 1)) by lia.
    rewrite !Z.pow_succ_r by lia. lia.
  - simpl. lia.
Qed.

Lemma Zdigits2_pos_bounds (n : Z) :
  0 < n -> 2 ^ (Zdigits2 n - 1) <= n < 2 ^ Zdigits2 n.
Proof. destruct n; try lia. intros _. apply digits2_pos_bounds. Qed.

Lemma Zdigits2_nonneg n : 0 <= Zdigits2 n.
Proof. destruct n; simpl; lia. Qed.

Lemma Zdigits2_le_of_lt (n k : Z) : 0 <= k -> 0 <= n < 2 ^ k -> Zdigits2 n <= k.
Proof.
  intros Pk [P L]. destruct (Z.eq_dec n 0) as [->|NZ]; [simpl; lia|].
  pose proof (Zdigits2_pos_bounds n ltac:(lia)) as [B _].
  destruct (Z_le_gt_dec (Zdigits2 n) k) as [|G]; [assumption|].
  assert (2 ^ k <= 2 ^ (Zdigits2 n - 1)) by (apply Z.pow_le_mono_r; lia). lia.
Qed.

Lemma Zdigits2_ge_of_le (n k : Z) : 0 <= k -> 2 ^ k <= n -> k + 1 <= Zdigits2 n.
Proof.
  intros Pk L. assert (0 < n) by (pose proof (Z.pow_pos_nonneg 2 k); lia).
  pose proof (Zdigits2_pos_bounds n ltac:(lia)) as [_ B].
  destruct (Z_le_gt_dec (k + 1) (Zdigits2 n)) as [|G]; [assumption|].
  pose proof (Zdigits2_nonneg n).
  assert (2 ^ (Zdigits2 n) <= 2 ^ k) by (apply Z.pow_le_mono_r; lia). lia.
Qed.

(** *** Shifting right and rounding to nearest even

    [shr_1] halves the value a record stands for and keeps track of what
    is lost in the round and sticky bits. *)

Lemma inject_Z_xO p : (inject_Z (Z.pos p~0) == 2 * inject_Z (Z.pos p))%Q.
Proof. rewrite Pos2Z.inj_xO, inject_Z_mult. reflexivity. Qed.

Lemma inject_Z_xI p : (inject_Z (Z.pos p~1) == 2 * inject_Z (Z.pos p) + 1)%Q.
Proof. rewrite Pos2Z.inj_xI, inject_Z_plus, inject_Z_mult. reflexivity. Qed.

(** One shift halves the located value. *)
Lemma located_shr_1 mrs x :
  0 <= shr_m mrs -> located mrs x ->
  located (shr_1 mrs) (x * (1 # 2)) /\ 0 <= shr_m (shr_1 mrs).
Proof.
  destruct mrs as [m r s]. unfold located. cbn [shr_m shr_r shr_s].
  intros P L.
  destruct m as [|[p|p|]|p]; try lia; cbn [shr_1 shr_m shr_r shr_s orb];
    (split; [|lia]).
  - (* 0 *)
    change (inject_Z 0) with 0%Q in *.
    destruct r, s; cbn [orb]; lra.
  - (* 2p+1 *)
    pose proof (inject_Z_xI p) as E. revert L E.
    generalize (inject_Z (Z.pos p~1)) (inject_Z (Z.pos p)). intros a b L E.
    destruct r, s; cbn [orb]; lra.
  - (* 2p *)
    pose proof (inject_Z_xO p) as E. revert L E.
    generalize (inject_Z (Z.pos p~0)) (inject_Z (Z.pos p)). intros a b L E.
    destruct r, s; cbn [orb]; lra.
  - (* 1 *)
    change (inject_Z 1) with 1%Q in *. change (inject_Z 0) with 0%Q.
    destruct r, s; cbn [orb]; lra.
Qed.

Lemma located_ext mrs x y : (x == y)%Q -> located mrs x -> located mrs y.
Proof.
  intros E. unfold located. destruct (shr_r mrs), (shr_s mrs); rewrite E; trivial.
Qed.

Lemma located_bounds mrs x :
  located mrs x -> (inject_Z (shr_m mrs) <= x /\ x < inject_Z (shr_m mrs) + 1)%Q.
Proof.
  unfold located. destruct (shr_r mrs), (shr_s mrs); intros L; lra.
Qed.

Lemma located_iter_pos p : forall mrs x,
  0 <= shr_m mrs -> located mrs x ->
  located (iter_pos shr_1 p mrs) (x * pow2 (- Z.pos p))
  /\ 0 <= shr_m (iter_pos shr_1 p mrs).
Proof.
  induction p as [p IH|p IH|]; intros mrs x P L; cbn [iter_pos].
  - destruct (located_shr_1 mrs x P L) as [L1 P1].
    destruct (IH _ _ P1 L1) as [L2 P2].
    destruct (IH _ _ P2 L2) as [L3 P3].
    split; [|exact P3]. revert L3. apply located_ext.
    replace (- Z.pos p~1) with (- Z.pos p + (- Z.pos p + -1)) by lia.
    rewrite !pow2_add. change (pow2 (-1)) with (1 # 2)%Q. ring.
  - destruct (IH _ _ P L) as [L2 P2].
    destruct (IH _ _ P2 L2) as [L3 P3].
    split; [|exact P3]. revert L3. apply located_ext.
    replace (- Z.pos p~0) with (- Z.pos p + - Z.pos p) by lia.
    rewrite !pow2_add. ring.
  - destruct (located_shr_1 mrs x P L) as [L1 P1].
    split; [|exact P1]. revert L1. apply located_ext.
    change (pow2 (- Z.pos 1)) with (1 # 2)%Q. ring.
Qed.

(** [shr] by a non-negative amount divides by a power of two. *)
Lemma located_shr mrs e n x :
  0 <= n -> 0 <= shr_m mrs -> located mrs x ->
  snd (shr mrs e n) = e + n
  /\ located (fst (shr mrs e n)) (x * pow2 (- n))
  /\ 0 <= shr_m (fst (shr mrs e n)).
Proof.
  intros Pn P L. destruct n as [|p|p]; try lia; cbn [shr fst snd].
  - split; [lia|]. split; [|exact P]. revert L. apply located_ext.
    change (pow2 (-0)) with 1%Q. ring.
  - split; [reflexivity|]. apply located_iter_pos; assumption.
Qed.

(** Rounding moves the located value by at most 1/2. *)
Lemma round_nearest_even_located mrs x :
  located mrs x ->
  let N := round_nearest_even (shr_m mrs) (loc_of_shr_record mrs) in
  (inject_Z N - x <= 1 # 2)%Q /\ (x - inject_Z N <= 1 # 2)%Q
  /\ shr_m mrs <= N <= shr_m mrs + 1.
Proof.
  destruct mrs as [m r s]. unfold located. cbn [shr_m shr_r shr_s loc_of_shr_record].
  destruct r, s; cbn [round_nearest_even]; intros L.
  - rewrite inject_Z_plus. change (inject_Z 1) with 1%Q. repeat split; try lra; lia.
  - destruct (Z.even m).
    + repeat split; try lra; lia.
    + rewrite inject_Z_plus. change (inject_Z 1) with 1%Q. repeat split; try lra; lia.
  - repeat split; try lra; lia.
  - repeat split; try lra; lia.
Qed.

(** *** The rounding step [binary_round_aux] *)

Lemma fexp_eq e : fexp prec emax e = Z.max (e - 53) (-1074).
Proof. reflexivity. Qed.

Lemma shr_m_of_loc m l : shr_m (shr_record_of_loc m l) = m.
Proof. destruct l as [|[]]; reflexivity. Qed.

Lemma shr_nonpos mrs e n : n <= 0 -> shr mrs e n = (mrs, e).
Proof. destruct n; try reflexivity. lia. Qed.

Lemma inject_Z_lt_pow2 (m k : Z) (x : Q) :
  0 <= k -> (inject_Z m <= x)%Q -> (x < pow2 k)%Q -> m < 2 ^ k.
Proof.
  intros Pk L U. rewrite pow2_Z in U by exact Pk.
  rewrite Zlt_Qlt. lra.
Qed.

(** The second [shr_fexp] of [binary_round_aux]: a mantissa of at most 53
    digits is left alone, and 2^53 is renormalized. *)
Lemma shr_fexp_rounded N e :
  0 <= N <= 2 ^ 53 -> -1074 <= e ->
  exists N2 e2,
    shr_fexp prec emax N e loc_Exact
    = ({| shr_m := N2; shr_r := false; shr_s := false |}, e2)
    /\ (inject_Z N2 * pow2 e2 == inject_Z N * pow2 e)%Q
    /\ 0 <= N2 /\ (N2 = 0 <-> N = 0) /\ e <= e2
    /\ (e2 = e \/ e2 = e + 1 /\ N = 2 ^ 53).
Proof.
  intros [P U] E. unfold shr_fexp. cbn [shr_record_of_loc].
  destruct (Z.eq_dec N (2 ^ 53)) as [->|NE].
  - exists (2 ^ 52), (e + 1).
    replace (fexp prec emax (Zdigits2 (2 ^ 53) + e) - e) with 1.
    2:{ rewrite fexp_eq. change (Zdigits2 (2 ^ 53)) with 54. lia. }
    split; [reflexivity|]. split.
    + rewrite pow2_succ. change (inject_Z (2 ^ 53)) with (2 * inject_Z (2 ^ 52))%Q. ring.
    + repeat split; try lia; try discriminate.
  - exists N, e.
    rewrite shr_nonpos.
    2:{ rewrite fexp_eq. pose proof (Zdigits2_le_of_lt N 53 ltac:(lia) ltac:(lia)). lia. }
    split; [reflexivity|]. split; [reflexivity|]. repeat split; try lia.
Qed.

(** [binary_round_aux] on a mantissa [mx], exponent [ex] and location
    [lx] that stand for the real [X * 2^ex], when the exponent is not
    above the canonical one: the result is [+inf], and then the value is
    at least 2^1023, or it is a non-negative float within
    2^-53 * value + 2^-1075 of the value; when nothing is lost before the
    rounding ([lx] exact and [-1074 <= ex]) the relative error alone is
    at most 2^-53. *)
Lemma binary_round_aux_error mx ex lx (X : Q) :
  0 <= mx ->
  located (shr_record_of_loc mx lx) X ->
  ex <= fexp prec emax (Zdigits2 mx + ex) ->
  let v := (X * pow2 ex)%Q in
  let r := binary_round_aux prec emax false mx ex lx in
  (r = S754_infinity false /\ (pow2 1023 <= v)%Q)
  \/ (exists R, SF_to_Q r = Some R /\ SF_nonneg r = true
        /\ (R - v <= pow2 (-53) * v + pow2 (-1075))%Q
        /\ (v - R <= pow2 (-53) * v + pow2 (-1075))%Q
        /\ (lx = loc_Exact -> -1074 <= ex ->
            (R - v <= pow2 (-53) * v)%Q /\ (v - R <= pow2 (-53) * v)%Q)).
Proof.
  intros Pm L H v r.
  set (d := Zdigits2 mx) in *. set (e' := fexp prec emax (d + ex)) in *.
  assert (Ee' : e' = Z.max (d + ex - 53) (-1074)) by reflexivity.
  assert (Pd : 0 <= d) by apply Zdigits2_nonneg.
  set (n := e' - ex).
  assert (Pn : 0 <= n) by (unfold n; lia).
  destruct (located_shr (shr_record_of_loc mx lx) ex n X Pn) as (E1 & L1 & P1);
    [rewrite shr_m_of_loc; exact Pm | exact L |].
  set (x1 := (X * pow2 (- n))%Q) in *.
  assert (Ev : (v == x1 * pow2 e')%Q).
  { unfold v, x1. rewrite <- Qmult_assoc, <- pow2_add.
    replace (- n + e') with ex by (unfold n; lia). reflexivity. }
  (* bounds on the shifted value *)
  destruct (located_bounds _ _ L) as [LX UX]. rewrite shr_m_of_loc in LX, UX.
  assert (Ux1 : (x1 < pow2 53)%Q).
  { assert (UX' : (X < pow2 d)%Q).
    { rewrite pow2_Z by exact Pd.
      destruct (Z.eq_dec mx 0) as [Z0|NZ].
      - subst mx. change (inject_Z 0) with 0%Q in UX.
        assert (1 <= 2 ^ d) by (pose proof (Z.pow_pos_nonneg 2 d ltac:(lia) Pd); lia).
        rewrite Zle_Qle in H0. change (inject_Z 1) with 1%Q in H0. lra.
      - pose proof (Zdigits2_pos_bounds mx ltac:(lia)) as [_ B]. fold d in B.
        assert (B' : mx + 1 <= 2 ^ d) by lia.
        rewrite Zle_Qle, inject_Z_plus in B'. change (inject_Z 1) with 1%Q in B'. lra. }
    unfold x1.
    apply Qlt_le_trans with (pow2 d * pow2 (- n))%Q.
    - apply Qmult_lt_compat_r; [apply pow2_pos | exact UX'].
    - rewrite <- pow2_add. apply pow2_le. unfold n. lia. }
  assert (Lx1 : e' = -1074 \/ (pow2 52 <= x1)%Q).
  { destruct (Z.eq_dec e' (-1074)) as [|NE]; [left; assumption | right].
    assert (Ed : e' = d + ex - 53) by lia.
    assert (NZ : 0 < mx).
    { destruct (Z.eq_dec mx 0) as [Z0|]; [|lia]. exfalso.
      subst mx. change (Zdigits2 0) with 0 in d. subst d. lia. }
    pose proof (Zdigits2_pos_bounds mx NZ) as [B _]. fold d in B.
    assert (1 <= d).
    { destruct mx; unfold d; simpl; lia. }
    rewrite Zle_Qle, <- pow2_Z in B by lia.
    unfold x1. apply Qle_trans with (pow2 (d - 1) * pow2 (- n))%Q.
    - rewrite <- pow2_add. apply pow2_le. unfold n. lia.
    - apply Qmult_le_compat_r; [lra | apply Qlt_le_weak, pow2_pos]. }
  (* the first shift and the rounding *)
  generalize (eq_refl r). unfold r at 2. clearbody r.
  unfold binary_round_aux. unfold shr_fexp at 1. fold d. fold e'. fold n.
  destruct (shr (shr_record_of_loc mx lx) ex n) as [mrs' e1] eqn:Eshr.
  cbn [fst snd] in E1, L1, P1. replace (ex + n) with e' in E1 by (unfold n; lia). subst e1.
  destruct (located_bounds _ _ L1) as [Lm Um].
  pose proof (round_nearest_even_located _ _ L1) as (RU & RL & RB).
  set (N := round_nearest_even (shr_m mrs') (loc_of_shr_record mrs')) in *.
  assert (Um' : shr_m mrs' < 2 ^ 53).
  { apply (inject_Z_lt_pow2 _ 53 x1); [lia | exact Lm | exact Ux1]. }
  destruct (shr_fexp_rounded N e' ltac:(lia) ltac:(lia))
    as (N2 & e2 & -> & EV & PN2 & ZN2 & Le2 & Ce2).
  cbn [shr_m].
  assert (Pe' : (0 < pow2 e')%Q) by apply pow2_pos.
  assert (Herr : (inject_Z N * pow2 e' - v <= (1 # 2) * pow2 e')%Q
                 /\ (v - inject_Z N * pow2 e' <= (1 # 2) * pow2 e')%Q).
  { rewrite Ev. revert RU RL Pe'. generalize (pow2 e') (inject_Z N). intros P0 N0 **.
    split; nra. }
  assert (Hexact : lx = loc_Exact -> n = 0 -> (inject_Z N * pow2 e' == v)%Q).
  { intros -> N0. rewrite N0 in Eshr. cbn [shr] in Eshr.
    injection Eshr as <- _. unfold N. cbn [shr_record_of_loc shr_m loc_of_shr_record round_nearest_even].
    cbn [shr_record_of_loc located shr_r shr_s shr_m] in L.
    rewrite Ev. unfold x1. rewrite N0. change (pow2 (-0)) with 1%Q. rewrite L. ring. }
  assert (Hhalf : e' <> -1074 -> ((1 # 2) * pow2 e' <= pow2 (-53) * v)%Q).
  { intros NE. destruct Lx1 as [|Lx1]; [contradiction|].
    rewrite Ev. change (pow2 (-53)) with (1 # 9007199254740992)%Q.
    change (pow2 52) with (4503599627370496 # 1)%Q in Lx1.
    revert Lx1 Pe'. generalize (pow2 e') x1. intros P0 x0 **. nra. }
  assert (Pv : (0 <= v)%Q).
  { unfold v. apply Qmult_le_0_compat; [|apply Qlt_le_weak, pow2_pos].
    assert (0 <= inject_Z mx)%Q by (change 0%Q with (inject_Z 0); rewrite <- Zle_Qle; exact Pm). lra. }
  assert (Hsmall : e' = -1074 -> ((1 # 2) * pow2 e' == pow2 (-1075))%Q).
  { intros ->. reflexivity. }
  assert (Hbound : ((1 # 2) * pow2 e' <= pow2 (-53) * v + pow2 (-1075))%Q).
  { destruct (Z.eq_dec e' (-1074)) as [E|NE].
    - rewrite (Hsmall E).
      assert (0 <= pow2 (-53) * v)%Q
        by (apply Qmult_le_0_compat; [apply Qlt_le_weak, pow2_pos | exact Pv]).
      lra.
    - pose proof (Hhalf NE). pose proof (pow2_pos (-1075)). lra. }
  assert (Hrel : lx = loc_Exact -> -1074 <= ex ->
            (inject_Z N * pow2 e' - v <= pow2 (-53) * v)%Q
            /\ (v - inject_Z N * pow2 e' <= pow2 (-53) * v)%Q).
  { intros EL Eex. destruct (Z.eq_dec n 0) as [N0|NN].
    - rewrite (Hexact EL N0).
      assert (0 <= pow2 (-53) * v)%Q
        by (apply Qmult_le_0_compat; [apply Qlt_le_weak, pow2_pos | exact Pv]).
      split; lra.
    - assert (NE : e' <> -1074) by (unfold n in NN; lia).
      pose proof (Hhalf NE). split; lra. }
  destruct N2 as [|m2|m2]; [| |lia].
  - (* zero *)
    intros ->. right. exists 0%Q. split; [reflexivity|]. split; [reflexivity|].
    assert (EN : N = 0) by (apply ZN2; reflexivity).
    rewrite EN in Herr, Hrel. change (inject_Z 0) with 0%Q in Herr, Hrel.
    split; [|split]; [lra | lra |]. intros EL Eex.
    destruct (Hrel EL Eex). split; lra.
  - destruct (Z.leb_spec e2 (emax - prec)) as [Le|Gt]; intros ->.
    + right. exists (inject_Z (Z.pos m2) * pow2 e2)%Q.
      split; [reflexivity|]. split; [reflexivity|].
      rewrite EV. split; [|split]; [lra | lra | exact Hrel].
    + (* overflow *)
      left. split; [reflexivity|].
      change (emax - prec) with 971 in Gt.
      assert (L52 : (pow2 52 <= x1)%Q).
      { destruct Ce2 as [->|[-> EN]].
        - destruct Lx1 as [|Lx1]; [lia | exact Lx1].
        - rewrite EN in RU.
          change (inject_Z (2 ^ 53)) with (9007199254740992 # 1)%Q in RU.
          change (pow2 52) with (4503599627370496 # 1)%Q. lra. }
      rewrite Ev.
      apply Qle_trans with (pow2 52 * pow2 971)%Q;
        [rewrite <- pow2_add; apply pow2_le; lia|].
      apply Qle_trans with (pow2 52 * pow2 e')%Q.
      * apply Qmult_le_l; [apply pow2_pos | apply pow2_le; lia].
      * apply Qmult_le_compat_r; [exact L52 | apply Qlt_le_weak, pow2_pos].
Qed.

(** *** Addition *)

Lemma iter_xO_value m d : Z.pos (Pos.iter xO m d) = Z.pos m * 2 ^ Z.pos d.
Proof.
  induction d as [|d IH] using Pos.peano_ind.
  - simpl. lia.
  - rewrite Pos.iter_succ, Pos2Z.inj_xO, IH, Pos2Z.inj_succ, Z.pow_succ_r by lia. lia.
Qed.

Lemma iter_xO_digits m d :
  Z.pos (digits2_pos (Pos.iter xO m d)) = Z.pos (digits2_pos m) + Z.pos d.
Proof.
  induction d as [|d IH] using Pos.peano_ind.
  - simpl. lia.
  - rewrite Pos.iter_succ. cbn [digits2_pos]. rewrite Pos2Z.inj_succ, IH. lia.
Qed.

Lemma shl_align_spec mx ex ex' :
  (inject_Z (Z.pos (fst (shl_align mx ex ex'))) * pow2 (snd (shl_align mx ex ex'))
   == inject_Z (Z.pos mx) * pow2 ex)%Q
  /\ (ex' < ex ->
      snd (shl_align mx ex ex') = ex'
      /\ Z.pos (digits2_pos (fst (shl_align mx ex ex')))
         = Z.pos (digits2_pos mx) + (ex - ex'))
  /\ (ex <= ex' -> shl_align mx ex ex' = (mx, ex)).
Proof.
  unfold shl_align. destruct (ex' - ex) as [|p|p] eqn:E; cbn [fst snd].
  - split; [reflexivity|]. split; [lia|reflexivity].
  - split; [reflexivity|]. split; [lia|reflexivity].
  - split; [|split; [|lia]].
    + rewrite iter_xO_value, inject_Z_mult, <- pow2_Z by lia.
      rewrite <- Qmult_assoc, <- pow2_add.
      replace (Z.pos p + ex') with ex by lia. reflexivity.
    + intros _. split; [reflexivity|]. rewrite iter_xO_digits. lia.
Qed.

Lemma valid_finite s m e :
  SpecFloat.valid_binary prec emax (S754_finite s m e) = true ->
  fexp prec emax (Z.pos (digits2_pos m) + e) = e /\ e <= 971.
Proof.
  cbn [SpecFloat.valid_binary]. unfold bounded, canonical_mantissa.
  rewrite andb_true_iff, Z.eqb_eq, Z.leb_le. change (emax - prec) with 971. tauto.
Qed.

(** Rounding an exact positive value [m * 2^e], with [-1074 <= e]. *)
Lemma binary_round_error m e :
  -1074 <= e ->
  let v := (inject_Z (Z.pos m) * pow2 e)%Q in
  let r := binary_round prec emax false m e in
  (r = S754_infinity false /\ (pow2 1023 <= v)%Q)
  \/ (exists R, SF_to_Q r = Some R /\ SF_nonneg r = true
        /\ (R - v <= pow2 (-53) * v)%Q /\ (v - R <= pow2 (-53) * v)%Q).
Proof.
  intros Le v r. unfold r, binary_round.
  set (f := fexp prec emax (Z.pos (digits2_pos m) + e)).
  destruct (shl_align_spec m e f) as (EV & Hlt & Hge).
  destruct (shl_align m e f) as [mz ez] eqn:Es. cbn [fst snd] in EV, Hlt.
  assert (Hc : ez <= fexp prec emax (Zdigits2 (Z.pos mz) + ez) /\ -1074 <= ez).
  { cbn [Zdigits2]. destruct (Z_lt_le_dec f e) as [Lt|Ge].
    - destruct (Hlt Lt) as [-> ->].
      replace (Z.pos (digits2_pos m) + (e - f) + f) with (Z.pos (digits2_pos m) + e) by lia.
      fold f. split; [lia|]. unfold f. rewrite fexp_eq. lia.
    - specialize (Hge Ge). injection Hge as -> ->. fold f. lia. }
  destruct Hc as [Hc Lez].
  destruct (binary_round_aux_error (Z.pos mz) ez loc_Exact (inject_Z (Z.pos mz))
              ltac:(lia) ltac:(cbn; reflexivity) Hc) as [[-> O]|(R & ER & NN & _ & _ & B)].
  - left. split; [reflexivity|]. unfold v. rewrite <- EV. exact O.
  - right. exists R. split; [exact ER|]. split; [exact NN|].
    destruct (B eq_refl Lez) as [B1 B2]. unfold v. rewrite <- EV. split; assumption.
Qed.

Lemma SF_nonneg_value x :
  SF_nonneg x = true -> exists q, SF_to_Q x = Some q /\ (0 <= q)%Q.
Proof.
  destruct x as [s|s| |[] m e]; try discriminate; intros _.
  - exists 0%Q. split; [reflexivity | lra].
  - eexists. split; [reflexivity|].
    apply Qmult_le_0_compat; [|apply Qlt_le_weak, pow2_pos].
    change 0%Q with (inject_Z 0). rewrite <- Zle_Qle. lia.
Qed.

(** Addition of two non-negative floats: relative error at most 2^-53,
    unless it overflows. *)
Lemma SFadd_error x y qx qy :
  SpecFloat.valid_binary prec emax x = true -> SpecFloat.valid_binary prec emax y = true ->
  SF_nonneg x = true -> SF_nonneg y = true ->
  SF_to_Q x = Some qx -> SF_to_Q y = Some qy ->
  let r := SFadd prec emax x y in
  (r = S754_infinity false /\ (pow2 1023 <= qx + qy)%Q)
  \/ (exists R, SF_to_Q r = Some R /\ SF_nonneg r = true
        /\ (R - (qx + qy) <= pow2 (-53) * (qx + qy))%Q
        /\ ((qx + qy) - R <= pow2 (-53) * (qx + qy))%Q).
Proof.
  intros Vx Vy Nx Ny Ex Ey r.
  assert (Hexact : forall z q, SF_nonneg z = true -> SF_to_Q z = Some q ->
            (q == qx + qy)%Q -> r = z ->
            (r = S754_infinity false /\ (pow2 1023 <= qx + qy)%Q)
            \/ (exists R, SF_to_Q r = Some R /\ SF_nonneg r = true
                  /\ (R - (qx + qy) <= pow2 (-53) * (qx + qy))%Q
                  /\ ((qx + qy) - R <= pow2 (-53) * (qx + qy))%Q)).
  { intros z q Nz Ez Eq ->. right. exists q. split; [exact Ez|]. split; [exact Nz|].
    destruct (SF_nonneg_value _ Nz) as (q' & Eq' & Pq). rewrite Ez in Eq'. injection Eq' as <-.
    assert (0 <= pow2 (-53) * (qx + qy))%Q.
    { apply Qmult_le_0_compat; [apply Qlt_le_weak, pow2_pos | lra]. }
    split; lra. }
  destruct x as [sx|sx| |sx mx ex]; try discriminate;
    destruct y as [sy|sy| |sy my ey]; try discriminate.
  - (* zero + zero *)
    cbn [SF_to_Q] in Ex, Ey. injection Ex as <-. injection Ey as <-.
    apply (Hexact (if sx then if sy then S754_zero true else S754_zero false
                   else S754_zero false) 0%Q).
    + destruct sx, sy; reflexivity.
    + destruct sx, sy; reflexivity.
    + lra.
    + unfold r. destruct sx, sy; reflexivity.
  - (* zero + finite *)
    cbn [SF_to_Q] in Ex. injection Ex as <-.
    apply (Hexact _ qy Ny Ey); [lra | reflexivity].
  - (* finite + zero *)
    cbn [SF_to_Q] in Ey. injection Ey as <-.
    apply (Hexact _ qx Nx Ex); [lra | reflexivity].
  - (* finite + finite *)
    destruct sx; [discriminate|]. destruct sy; [discriminate|].
    cbn [SF_to_Q] in Ex, Ey. injection Ex as <-. injection Ey as <-.
    destruct (valid_finite _ _ _ Vx) as [Cx _]. destruct (valid_finite _ _ _ Vy) as [Cy _].
    rewrite fexp_eq in Cx, Cy.
    unfold r. cbn [SFadd cond_Zopp].
    set (ez := Z.min ex ey).
    destruct (shl_align_spec mx ex ez) as (EVx & Hltx & Hgex).
    destruct (shl_align_spec my ey ez) as (EVy & Hlty & Hgey).
    assert (Sx : snd (shl_align mx ex ez) = ez).
    { destruct (Z_lt_le_dec ez ex) as [Lt|Ge]; [apply Hltx; exact Lt|].
      rewrite (Hgex Ge). cbn. unfold ez in *. lia. }
    assert (Sy : snd (shl_align my ey ez) = ez).
    { destruct (Z_lt_le_dec ez ey) as [Lt|Ge]; [apply Hlty; exact Lt|].
      rewrite (Hgey Ge). cbn. unfold ez in *. lia. }
    rewrite Sx in EVx. rewrite Sy in EVy.
    set (ax := fst (shl_align mx ex ez)) in *. set (ay := fst (shl_align my ey ez)) in *.
    change (Z.pos ax + Z.pos ay) with (Z.pos (ax + ay)). cbn [binary_normalize].
    assert (Lez : -1074 <= ez) by (unfold ez; lia).
    assert (EV : (inject_Z (Z.pos (ax + ay)) * pow2 ez
                  == inject_Z (Z.pos mx) * Qpower 2 ex + inject_Z (Z.pos my) * Qpower 2 ey)%Q).
    { rewrite Pos2Z.inj_add, inject_Z_plus. fold (pow2 ex). fold (pow2 ey).
      rewrite <- EVx, <- EVy. ring. }
    destruct (binary_round_error (ax + ay) ez Lez) as [[-> O]|(R & ER & NN & B1 & B2)].
    + left. split; [reflexivity|]. rewrite <- EV. exact O.
    + right. exists R. split; [exact ER|]. split; [exact NN|]. rewrite <- EV.
      split; assumption.
Qed.

(** *** Division *)

(** The location computed by the division is that of the remainder. *)
Lemma new_location_located (q m2 r : Z) (rho : Q) :
  0 < m2 -> 0 <= r < m2 -> (rho * inject_Z m2 == inject_Z r)%Q ->
  located (shr_record_of_loc q (new_location m2 r)) (inject_Z q + rho).
Proof.
  intros Pm [Pr Lr] E.
  assert (Pm' : (0 < inject_Z m2)%Q)
    by (change 0%Q with (inject_Z 0); rewrite <- Zlt_Qlt; exact Pm).
  assert (Hexact : r = 0 -> located (shr_record_of_loc q loc_Exact) (inject_Z q + rho)).
  { intros ->. change (inject_Z 0) with 0%Q in E.
    assert (rho == 0)%Q by nra.
    unfold located; cbn [shr_record_of_loc shr_r shr_s shr_m]. lra. }
  assert (Hlt : 0 < r -> 2 * r < m2 ->
            located (shr_record_of_loc q (loc_Inexact Lt)) (inject_Z q + rho)).
  { intros Pr' Lt. rewrite Zlt_Qlt in Pr'. change (inject_Z 0) with 0%Q in Pr'.
    rewrite Zlt_Qlt, inject_Z_mult in Lt. change (inject_Z 2) with 2%Q in Lt.
    unfold located; cbn [shr_record_of_loc shr_r shr_s shr_m]. split; nra. }
  assert (Hgt : m2 < 2 * r ->
            located (shr_record_of_loc q (loc_Inexact Gt)) (inject_Z q + rho)).
  { intros Gt. rewrite Zlt_Qlt, inject_Z_mult in Gt. change (inject_Z 2) with 2%Q in Gt.
    rewrite Zlt_Qlt in Lr.
    unfold located; cbn [shr_record_of_loc shr_r shr_s shr_m]. split; nra. }
  assert (Heq : 0 < r -> 2 * r = m2 ->
            located (shr_record_of_loc q (loc_Inexact Eq)) (inject_Z q + rho)).
  { intros Pr' Eq. rewrite Zlt_Qlt in Pr'. change (inject_Z 0) with 0%Q in Pr'.
    rewrite <- Eq, inject_Z_mult in E. change (inject_Z 2) with 2%Q in E.
    assert (rho == 1 # 2)%Q.
    { revert E Pr'. generalize (inject_Z r). intros a **. apply Qle_antisym; nra. }
    unfold located; cbn [shr_record_of_loc shr_r shr_s shr_m]. lra. }
  unfold new_location. change (IntDef.Z.even m2) with (Z.even m2).
  destruct (Z.even m2) eqn:Ev.
  - unfold new_location_even. change (IntDef.Z.eqb r 0) with (Z.eqb r 0).
    change (IntDef.Z.compare (IntDef.Z.mul 2 r) m2) with (Z.compare (2 * r) m2).
    destruct (Z.eqb_spec r 0) as [Z0|NZ]; [apply Hexact; exact Z0|].
    destruct (Z.compare_spec (2 * r) m2) as [Eq|Lt|Gt].
    + apply Heq; [lia | exact Eq].
    + apply Hlt; [lia | exact Lt].
    + apply Hgt; exact Gt.
  - unfold new_location_odd. change (IntDef.Z.eqb r 0) with (Z.eqb r 0).
    change (IntDef.Z.compare (IntDef.Z.add (IntDef.Z.mul 2 r) 1) m2)
      with (Z.compare (2 * r + 1) m2).
    destruct (Z.eqb_spec r 0) as [Z0|NZ]; [apply Hexact; exact Z0|].
    destruct (Z.compare_spec (2 * r + 1) m2) as [Eq|Lt|Gt].
    + apply Hlt; lia.
    + apply Hlt; lia.
    + apply Hgt. assert (m2 <> 2 * r); [|lia]. intros ->.
      rewrite Z.even_mul in Ev. discriminate.
Qed.

(** The quotient, its exponent and its location stand for the exact
    quotient of the two floats, and the quotient has enough digits for the
    rounding step. *)
Lemma SFdiv_core_binary_spec mx ex my ey :
  fexp prec emax (Z.pos (digits2_pos mx) + ex) = ex ->
  fexp prec emax (Z.pos (digits2_pos my) + ey) = ey ->
  exists X,
    let '(q, e', l) := SFdiv_core_binary prec emax (Z.pos mx) ex (Z.pos my) ey in
    0 <= q /\ located (shr_record_of_loc q l) X
    /\ e' <= fexp prec emax (Zdigits2 q + e')
    /\ (X * pow2 e' * (inject_Z (Z.pos my) * pow2 ey)
        == inject_Z (Z.pos mx) * pow2 ex)%Q
    /\ (0 <= X)%Q.
Proof.
  intros Cx Cy. unfold SFdiv_core_binary. cbn [Zdigits2].
  set (d1 := Z.pos (digits2_pos mx)) in *. set (d2 := Z.pos (digits2_pos my)) in *.
  set (E := d1 + ex - (d2 + ey)).
  set (e' := Z.min (fexp prec emax E) (ex - ey)).
  set (s := ex - ey - e').
  assert (Ps : 0 <= s) by (unfold s, e'; lia).
  set (m' := match s with Z.pos _ => Z.shiftl (Z.pos mx) s | 0 => Z.pos mx | Z.neg _ => 0 end).
  assert (Em : m' = Z.pos mx * 2 ^ s).
  { unfold m'. clearbody s. destruct s as [|p|p]; try lia.
    change (IntDef.Z.shiftl (Z.pos mx) (Z.pos p)) with (Z.shiftl (Z.pos mx) (Z.pos p)).
    apply Z.shiftl_mul_pow2. lia. }
  pose proof (Z_div_mod m' (Z.pos my) ltac:(lia)) as DM.
  destruct (Z.div_eucl m' (Z.pos my)) as [q r]. destruct DM as [DM Rr].
  set (rho := (inject_Z r / inject_Z (Z.pos my))%Q).
  assert (Pmy : (0 < inject_Z (Z.pos my))%Q) by reflexivity.
  assert (Erho : (rho * inject_Z (Z.pos my) == inject_Z r)%Q).
  { unfold rho. field. intros F. rewrite F in Pmy. discriminate. }
  assert (P2s : 0 < 2 ^ s) by (apply Z.pow_pos_nonneg; lia).
  assert (Pq : 0 <= q) by nia.
  exists (inject_Z q + rho)%Q.
  split; [exact Pq|]. split; [apply new_location_located; [lia | exact Rr | exact Erho]|].
  split; [|split].
  - (* the quotient has enough digits *)
    rewrite fexp_eq. destruct (Z_le_gt_dec e' (-1074)) as [Le|Gt]; [lia|].
    assert (HE : e' <= E - 53) by (unfold e' in *; rewrite fexp_eq in *; lia).
    assert (Hs : 53 - d1 + d2 <= s) by (unfold s, E in *; lia).
    pose proof (digits2_pos_bounds mx) as [Bx _]. pose proof (digits2_pos_bounds my) as [_ By].
    fold d1 in Bx. fold d2 in By.
    assert (Hq : 2 ^ 52 <= q).
    { assert (Hm : 2 ^ (52 + d2) <= m').
      { rewrite Em.
        apply Z.le_trans with (2 ^ (d1 - 1) * 2 ^ s).
        - rewrite <- Z.pow_add_r by (unfold d1; lia).
          apply Z.pow_le_mono_r; lia.
        - apply Z.mul_le_mono_nonneg_r; lia. }
      rewrite Z.pow_add_r in Hm by (unfold d2; lia).
      assert (0 < 2 ^ 52) by reflexivity.
      nia. }
    pose proof (Zdigits2_ge_of_le q 52 ltac:(lia) Hq). lia.
  - (* the value *)
    assert (EQ : (inject_Z m' == inject_Z (Z.pos my) * inject_Z q + inject_Z r)%Q).
    { rewrite DM, inject_Z_plus, inject_Z_mult. reflexivity. }
    rewrite Em, inject_Z_mult, <- pow2_Z in EQ by exact Ps.
    assert (Ep : (pow2 ex == pow2 s * pow2 e' * pow2 ey)%Q).
    { rewrite <- !pow2_add. replace (s + e' + ey) with ex by (unfold s; lia). reflexivity. }
    rewrite Ep.
    transitivity ((inject_Z (Z.pos my) * inject_Z q + rho * inject_Z (Z.pos my))
                  * (pow2 e' * pow2 ey))%Q; [ring|].
    rewrite Erho, <- EQ. ring.
  - assert (0 <= inject_Z q)%Q by (change 0%Q with (inject_Z 0); rewrite <- Zle_Qle; exact Pq).
    assert (0 <= inject_Z r)%Q by (change 0%Q with (inject_Z 0); rewrite <- Zle_Qle; lia).
    assert (0 <= rho)%Q; [|lra].
    revert Erho Pmy H0. generalize (inject_Z r) (inject_Z (Z.pos my)) rho. intros a b c **. nra.
Qed.

(** Division of a non-negative float by a positive one: relative error at
    most 2^-53 plus half the smallest subnormal, unless it overflows. *)
Lemma SFdiv_error x my ey qx :
  SpecFloat.valid_binary prec emax x = true ->
  SpecFloat.valid_binary prec emax (S754_finite false my ey) = true ->
  SF_nonneg x = true -> SF_to_Q x = Some qx ->
  let qy := (inject_Z (Z.pos my) * pow2 ey)%Q in
  let r := SFdiv prec emax x (S754_finite false my ey) in
  exists v, (v * qy == qx)%Q /\ (0 <= v)%Q
    /\ ((r = S754_infinity false /\ (pow2 1023 <= v)%Q)
        \/ (exists R, SF_to_Q r = Some R /\ SF_nonneg r = true
              /\ (R - v <= pow2 (-53) * v + pow2 (-1075))%Q
              /\ (v - R <= pow2 (-53) * v + pow2 (-1075))%Q)).
Proof.
  intros Vx Vy Nx Ex qy r.
  destruct x as [sx|sx| |sx mx ex]; try discriminate.
  - (* zero *)
    cbn [SF_to_Q] in Ex. injection Ex as <-. exists 0%Q.
    split; [ring|]. split; [lra|]. right. exists 0%Q.
    split; [reflexivity|]. split; [reflexivity|].
    pose proof (pow2_pos (-1075)). split; lra.
  - destruct sx; [discriminate|].
    cbn [SF_to_Q] in Ex. injection Ex as <-.
    destruct (valid_finite _ _ _ Vx) as [Cx _]. destruct (valid_finite _ _ _ Vy) as [Cy _].
    destruct (SFdiv_core_binary_spec mx ex my ey Cx Cy) as (X & HX).
    unfold r. cbn [SFdiv xorb].
    destruct (SFdiv_core_binary prec emax (Z.pos mx) ex (Z.pos my) ey) as [[q e'] l].
    destruct HX as (Pq & L & H & EV & PX).
    exists (X * pow2 e')%Q. split; [exact EV|].
    split; [apply Qmult_le_0_compat; [exact PX | apply Qlt_le_weak, pow2_pos]|].
    destruct (binary_round_aux_error q e' l X Pq L H) as [[-> O]|(R & ER & NN & B1 & B2 & _)].
    + left. split; [reflexivity | exact O].
    + right. exists R. repeat split; assumption.
Qed.

(** *** The primitive floats *)

Lemma float_to_Q_SF f : float_to_Q f = SF_to_Q (Prim2SF f).
Proof. reflexivity. Qed.

Lemma nonneg_float_to_Q f : nonneg f = true -> float_to_Q f = Some (Qof f).
Proof.
  unfold nonneg, Qof. rewrite float_to_Q_SF.
  destruct (Prim2SF f) as [s|s| |[] m e]; try discriminate; reflexivity.
Qed.

Lemma nonneg_Qof f : nonneg f = true -> (0 <= Qof f)%Q.
Proof.
  intros NN. destruct (SF_nonneg_value _ NN) as (q & E & P).
  unfold Qof. rewrite float_to_Q_SF, E. exact P.
Qed.

Lemma nonneg_finite f : nonneg f = true -> finite f = true.
Proof.
  unfold nonneg, finite. destruct (Prim2SF f) as [s|s| |[] m e]; try discriminate; reflexivity.
Qed.

Lemma is_pinf_not_finite f : is_pinf f -> finite f = false.
Proof. unfold is_pinf, finite. intros ->. reflexivity. Qed.

(** [a + b] for non-negative floats: [+inf], and then the exact sum is at
    least 2^1023, or within 2^-53 of the exact sum, relatively. *)
Lemma float_add_error (a b : float) :
  nonneg a = true -> nonneg b = true ->
  (is_pinf (a + b) /\ (pow2 1023 <= Qof a + Qof b)%Q)
  \/ (nonneg (a + b) = true
      /\ (Qof (a + b) - (Qof a + Qof b) <= pow2 (-53) * (Qof a + Qof b))%Q
      /\ ((Qof a + Qof b) - Qof (a + b) <= pow2 (-53) * (Qof a + Qof b))%Q).
Proof.
  intros Na Nb.
  pose proof (nonneg_float_to_Q a Na) as Ea. pose proof (nonneg_float_to_Q b Nb) as Eb.
  rewrite float_to_Q_SF in Ea, Eb.
  destruct (SFadd_error (Prim2SF a) (Prim2SF b) (Qof a) (Qof b)
              (Prim2SF_valid a) (Prim2SF_valid b) Na Nb Ea Eb)
    as [[E O]|(R & ER & NN & B1 & B2)].
  - left. split; [|exact O]. unfold is_pinf. rewrite add_spec. exact E.
  - right. unfold nonneg, Qof. rewrite float_to_Q_SF, add_spec.
    unfold SF64add. rewrite ER. auto.
Qed.

Lemma float_add_pinf (a b : float) :
  is_pinf a -> nonneg b = true -> is_pinf (a + b).
Proof.
  unfold is_pinf, nonneg. intros Ea Nb. rewrite add_spec, Ea.
  destruct (Prim2SF b) as [s|s| |[] m e]; try discriminate; reflexivity.
Qed.

(** A non-negative float that is not [== 0] is a positive real. *)
Lemma nonneg_nonzero (b : float) :
  nonneg b = true -> PrimFloat.eqb b 0 = false ->
  exists m e, Prim2SF b = S754_finite false m e.
Proof.
  unfold nonneg. rewrite eqb_spec. change (Prim2SF 0) with (S754_zero false).
  destruct (Prim2SF b) as [s|s| |[] m e]; try discriminate.
  intros _ _. eauto.
Qed.

Lemma nonneg_nonzero_pos (b : float) :
  nonneg b = true -> PrimFloat.eqb b 0 = false -> (0 < Qof b)%Q.
Proof.
  intros N Z. destruct (nonneg_nonzero b N Z) as (m & e & E).
  unfold Qof. rewrite float_to_Q_SF, E. cbn [SF_to_Q].
  apply Qmult_lt_0_compat; [reflexivity | apply pow2_pos].
Qed.

(** [a / b] for a non-negative [a] and a positive [b]: there is an exact
    quotient [v], and the result is [+inf] with [v] at least 2^1023, or
    within 2^-53 * v + 2^-1075 of [v]. *)
Lemma float_div_error (a b : float) :
  nonneg a = true -> nonneg b = true -> PrimFloat.eqb b 0 = false ->
  exists v, (v * Qof b == Qof a)%Q /\ (0 <= v)%Q
    /\ ((is_pinf (a / b) /\ (pow2 1023 <= v)%Q)
        \/ (nonneg (a / b) = true
            /\ (Qof (a / b) - v <= pow2 (-53) * v + pow2 (-1075))%Q
            /\ (v - Qof (a / b) <= pow2 (-53) * v + pow2 (-1075))%Q)).
Proof.
  intros Na Nb Zb.
  destruct (nonneg_nonzero b Nb Zb) as (m & e & Eb).
  pose proof (nonneg_float_to_Q a Na) as Ea. rewrite float_to_Q_SF in Ea.
  pose proof (Prim2SF_valid b) as Vb. rewrite Eb in Vb.
  destruct (SFdiv_error (Prim2SF a) m e (Qof a) (Prim2SF_valid a) Vb Na Ea)
    as (v & EV & Pv & C).
  exists v. split; [|split; [exact Pv|]].
  - unfold Qof at 1. rewrite float_to_Q_SF, Eb. exact EV.
  - destruct C as [[E O]|(R & ER & NN & B1 & B2)].
    + left. split; [|exact O]. unfold is_pinf. rewrite div_spec, Eb. exact E.
    + right. unfold nonneg, Qof. rewrite float_to_Q_SF, div_spec, Eb.
      unfold SF64div. rewrite ER. auto.
Qed.

(** *** Sums of non-negative floats *)

Lemma qsum_nonneg l : all_nonneg l -> (0 <= qsum l)%Q.
Proof.
  induction 1 as [|w l Nw _ IH]; cbn [qsum fold_right]; [lra|].
  fold (qsum l). pose proof (nonneg_Qof w Nw). lra.
Qed.

Lemma qsum_member l w : all_nonneg l -> In w l -> (Qof w <= qsum l)%Q.
Proof.
  induction 1 as [|x l Nx Nl IH]; intros I; [destruct I|].
  cbn [qsum fold_right]. fold (qsum l).
  pose proof (nonneg_Qof x Nx). pose proof (qsum_nonneg l Nl).
  destruct I as [->|I]; [lra|]. specialize (IH I). lra.
Qed.

Lemma qlen_nonneg {A} (l : list A) : (0 <= qlen l)%Q.
Proof.
  unfold qlen. change 0%Q with (inject_Z 0). rewrite <- Zle_Qle. lia.
Qed.

Lemma qlen_cons {A} (x : A) l : (qlen (x :: l) == qlen l + 1)%Q.
Proof.
  unfold qlen. cbn [length]. rewrite Nat2Z.inj_succ, <- Z.add_1_r, inject_Z_plus.
  reflexivity.
Qed.

Lemma fold_add_pinf l : forall a,
  is_pinf a -> all_nonneg l -> is_pinf (fold_left PrimFloat.add l a).
Proof.
  induction l as [|x l IH]; intros a Pa Nl; [exact Pa|].
  inversion Nl as [|? ? Nx Nl']; subst. cbn [fold_left].
  apply IH; [apply float_add_pinf; assumption | exact Nl'].
Qed.

(** One more rounded addition keeps the bounds on the running sum. *)
Lemma fold_add_step (k A a x c : Q) :
  let u := (1 # 9007199254740992)%Q in
  let u' := (1000000001 # 9007199254740992000000000)%Q in
  (0 <= k)%Q -> (0 <= A)%Q -> (0 <= x)%Q -> (k * u' <= 1 # 1000000000)%Q ->
  ((1 - k * u) * A <= a)%Q -> (a <= (1 + k * u') * A)%Q ->
  (c - (a + x) <= u * (a + x))%Q -> ((a + x) - c <= u * (a + x))%Q ->
  ((1 - (k + 1) * u) * (A + x) <= c)%Q /\ (c <= (1 + (k + 1) * u') * (A + x))%Q.
Proof.
  intros u u' Pk PA Px Hk L U C1 C2. unfold u, u' in *.
  assert (0 <= k * A)%Q by (apply Qmult_le_0_compat; assumption).
  assert (0 <= k * x)%Q by (apply Qmult_le_0_compat; assumption).
  assert (0 <= ((1 # 1000000000)
                - k * (1000000001 # 9007199254740992000000000)) * A)%Q
    by (apply Qmult_le_0_compat; [lra | assumption]).
  split; nra.
Qed.

(** The running sum [r] of the loop of [sum], started from [a] after [k]
    additions: if [a] is within [1 - k u] and [1 + k u'] of the exact sum
    [A] so far, with u = 2^-53 and u' = u (1 + 1e-9), then [r] is within
    the same bounds of the exact sum at the end, unless it overflows. *)
Lemma fold_add_bounds l : forall (a : float) (k A : Q),
  let u := (1 # 9007199254740992)%Q in
  let u' := (1000000001 # 9007199254740992000000000)%Q in
  nonneg a = true -> all_nonneg l -> (0 <= k)%Q -> (0 <= A)%Q ->
  ((1 - k * u) * A <= Qof a)%Q -> (Qof a <= (1 + k * u') * A)%Q ->
  ((k + qlen l) * u' <= 1 # 1000000000)%Q ->
  let r := fold_left PrimFloat.add l a in
  (is_pinf r /\ (pow2 1023 <= (1 + (k + qlen l) * u') * (A + qsum l))%Q)
  \/ (nonneg r = true
      /\ ((1 - (k + qlen l) * u) * (A + qsum l) <= Qof r)%Q
      /\ (Qof r <= (1 + (k + qlen l) * u') * (A + qsum l))%Q).
Proof.
  induction l as [|x l IH]; intros a k A u u' Na Nl Pk PA L U Hk r; subst u u'.
  - right. unfold r. cbn [fold_left qsum fold_right]. unfold qlen. cbn [length].
    change (inject_Z (Z.of_nat 0)) with 0%Q.
    split; [exact Na|]. split; lra.
  - inversion Nl as [|? ? Nx Nl']; subst.
    pose proof (nonneg_Qof x Nx) as Px. pose proof (qsum_nonneg l Nl') as Ps.
    pose proof (qlen_nonneg l) as Pn. pose proof (qlen_cons x l) as En.
    unfold r. cbn [fold_left qsum fold_right]. fold (qsum l).
    assert (Hk' : (k * (1000000001 # 9007199254740992000000000)
                   <= 1 # 1000000000)%Q) by lra.
    destruct (float_add_error a x Na Nx) as [[Pi O]|(Nc & C1 & C2)].
    + left. split; [apply fold_add_pinf; assumption|].
      rewrite En.
      apply Qle_trans with (1 := O).
      revert Px Ps Pn Pk PA U Hk'. generalize (qlen l) (qsum l) (Qof x) (Qof a).
      intros n s qx qa **.
      assert (0 <= (k + n + 1) * (A + (qx + s)))%Q
        by (apply Qmult_le_0_compat; lra).
      assert (0 <= k * A)%Q by (apply Qmult_le_0_compat; lra).
      assert (0 <= (n + 1) * A)%Q by (apply Qmult_le_0_compat; lra).
      nra.
    + change (pow2 (-53)) with (1 # 9007199254740992)%Q in C1, C2.
      destruct (fold_add_step k A (Qof a) (Qof x) (Qof (a + x)) Pk PA Px Hk' L U C1 C2)
        as [L' U'].
      assert (Hk2 : ((k + 1 + qlen l) * (1000000001 # 9007199254740992000000000)
                     <= 1 # 1000000000)%Q).
      { rewrite En in Hk. lra. }
      destruct (IH (a + x)%float (k + 1)%Q (A + Qof x)%Q Nc Nl' ltac:(lra) ltac:(lra)
                  L' U' Hk2) as [[Pi O]|(Nr & Lr & Ur)].
      * left. split; [exact Pi|]. rewrite En.
        apply Qle_trans with (1 := O). apply Qle_lteq. right. ring.
      * right. split; [exact Nr|]. rewrite En. split.
        -- apply Qle_trans with (2 := Lr). apply Qle_lteq. right. ring.
        -- apply Qle_trans with (1 := Ur). apply Qle_lteq. right. ring.
Qed.

(** The float sum of non-negative floats, from 0. *)
Lemma float_sum_bounds (l : list float) :
  let u := (1 # 9007199254740992)%Q in
  let u' := (1000000001 # 9007199254740992000000000)%Q in
  all_nonneg l -> (qlen l * u' <= 1 # 1000000000)%Q ->
  let r := fold_left PrimFloat.add l 0%float in
  (is_pinf r /\ (pow2 1023 <= (1 + qlen l * u') * qsum l)%Q)
  \/ (nonneg r = true
      /\ ((1 - qlen l * u) * qsum l <= Qof r)%Q
      /\ (Qof r <= (1 + qlen l * u') * qsum l)%Q).
Proof.
  intros u u' Nl Hk r. subst u u'.
  destruct (fold_add_bounds l 0%float 0%Q 0%Q eq_refl Nl ltac:(lra) ltac:(lra))
    as [[Pi O]|(Nr & Lr & Ur)].
  - change (Qof 0) with 0%Q. lra.
  - change (Qof 0) with 0%Q. lra.
  - lra.
  - left. split; [exact Pi|].
    apply Qle_trans with (1 := O). apply Qle_lteq. right. ring.
  - right. split; [exact Nr|]. split.
    + apply Qle_trans with (2 := Lr). apply Qle_lteq. right. ring.
    + apply Qle_trans with (1 := Ur). apply Qle_lteq. right. ring.
Qed.

(** *** The divisions of [normalize()] *)

Lemma pow2_1023_large : (4 <= pow2 1023)%Q.
Proof. change 4%Q with (pow2 2). apply pow2_le. lia. Qed.

Lemma eta_small : (pow2 (-1075) <= 1 # 1000000000000000000000000000000)%Q.
Proof.
  apply Qle_trans with (pow2 (-100)); [apply pow2_le; lia|].
  apply Qle_bool_imp_le. vm_compute. reflexivity.
Qed.

(** One division [w / T] of the normalization loop. *)
Lemma float_div_bounds (w T : float) :
  nonneg w = true -> nonneg T = true -> PrimFloat.eqb T 0 = false ->
  (Qof w <= 2 * Qof T)%Q ->
  nonneg (w / T) = true
  /\ (Qof (w / T) * Qof T
      <= (1 + (1 # 9007199254740992)) * Qof w + pow2 (-1075) * Qof T)%Q
  /\ ((1 - (1 # 9007199254740992)) * Qof w - pow2 (-1075) * Qof T
      <= Qof (w / T) * Qof T)%Q.
Proof.
  intros Nw NT ZT Hw.
  pose proof (nonneg_nonzero_pos T NT ZT) as PT.
  destruct (float_div_error w T Nw NT ZT) as (v & EV & Pv & [[_ O]|(Nr & B1 & B2)]).
  - exfalso. pose proof pow2_1023_large as L.
    revert EV O L Hw PT. generalize (pow2 1023) (Qof w) (Qof T). intros P qw qt **. nra.
  - split; [exact Nr|].
    change (pow2 (-53)) with (1 # 9007199254740992)%Q in B1, B2.
    revert EV B1 B2 PT. generalize (pow2 (-1075)) (Qof (w / T)) (Qof w) (Qof T).
    intros eta q qw qt **. split; nra.
Qed.

Lemma map_div_bounds (T : float) (l : list float) :
  nonneg T = true -> PrimFloat.eqb T 0 = false ->
  all_nonneg l -> (forall w, In w l -> (Qof w <= 2 * Qof T)%Q) ->
  let once := map (fun w => (w / T)%float) l in
  all_nonneg once
  /\ (qsum once * Qof T
      <= (1 + (1 # 9007199254740992)) * qsum l + qlen l * (pow2 (-1075) * Qof T))%Q
  /\ ((1 - (1 # 9007199254740992)) * qsum l - qlen l * (pow2 (-1075) * Qof T)
      <= qsum once * Qof T)%Q.
Proof.
  intros NT ZT Nl Hl. induction Nl as [|w l Nw Nl IH]; cbn [map qsum fold_right].
  - split; [constructor|]. unfold qlen. cbn [length]. change (inject_Z (Z.of_nat 0)) with 0%Q.
    split; lra.
  - fold (qsum l). fold (qsum (map (fun w => (w / T)%float) l)).
    destruct (float_div_bounds w T Nw NT ZT (Hl w (or_introl eq_refl))) as (Nr & U & L).
    destruct (IH (fun x I => Hl x (or_intror I))) as (No & Uo & Lo).
    split; [constructor; assumption|]. rewrite qlen_cons.
    revert U L Uo Lo.
    generalize (pow2 (-1075) * Qof T)%Q (qsum (map (fun w => (w / T)%float) l))
      (Qof (w / T)) (Qof w) (qsum l) (qlen l) (Qof T).
    intros e so q qw s n qt **. split; nra.
Qed.

(** ** The arithmetic of a second normalization *)

(** With at most 4,000,000 weights the float total is within 4.45e-10 of
    the exact sum, relatively. *)
Lemma total_bounds_numeric (n S t : Q) :
  (0 <= n)%Q -> (n <= 4000000)%Q -> (0 <= S)%Q ->
  ((1 - n * (1 # 9007199254740992)) * S <= t)%Q ->
  (t <= (1 + n * (1000000001 # 9007199254740992000000000)) * S)%Q ->
  ((1 - (4000000 # 9007199254740992)) * S <= t)%Q
  /\ (t <= (1 + 4000000 * (1000000001 # 9007199254740992000000000)) * S)%Q.
Proof.
  intros Pn Un PS L U.
  assert (0 <= n * S)%Q by (apply Qmult_le_0_compat; assumption).
  assert (0 <= (4000000 - n) * S)%Q by (apply Qmult_le_0_compat; lra).
  split; nra.
Qed.

(** The exact sum of the normalized weights is close to 1. *)
Lemma once_sum_bounds (n S t s' eta : Q) :
  (0 <= n)%Q -> (n <= 4000000)%Q -> (0 <= S)%Q -> (0 < t)%Q ->
  (0 <= eta)%Q -> (eta <= 1 # 1000000000000000000000000000000)%Q ->
  ((1 - (4000000 # 9007199254740992)) * S <= t)%Q ->
  (t <= (1 + 4000000 * (1000000001 # 9007199254740992000000000)) * S)%Q ->
  (s' * t <= (1 + (1 # 9007199254740992)) * S + n * (eta * t))%Q ->
  ((1 - (1 # 9007199254740992)) * S - n * (eta * t) <= s' * t)%Q ->
  (1 - (445 # 1000000000000) <= s')%Q /\ (s' <= 1 + (445 # 1000000000000))%Q.
Proof.
  intros Pn Un PS Pt Pe Ue L U U' L'.
  assert (He : (n * (eta * t) <= (4 # 1000000000000000000000000) * t)%Q).
  { assert (0 <= eta * t)%Q by (apply Qmult_le_0_compat; lra).
    assert (0 <= (4000000 - n) * (eta * t))%Q by (apply Qmult_le_0_compat; lra).
    assert (0 <= ((1 # 1000000000000000000000000000000) - eta) * t)%Q
      by (apply Qmult_le_0_compat; lra).
    nra. }
  split.
  - apply Qnot_lt_le. intros C.
    assert (s' * t < (1 - (445 # 1000000000000)) * t)%Q
      by (apply Qmult_lt_compat_r; assumption).
    lra.
  - apply Qnot_lt_le. intros C.
    assert ((1 + (445 # 1000000000000)) * t < s' * t)%Q
      by (apply Qmult_lt_compat_r; assumption).
    lra.
Qed.

(** A normalized weight is at most about 1. *)
Lemma once_weight_bound (S t qw p eta : Q) :
  (0 <= qw)%Q -> (qw <= S)%Q -> (0 < t)%Q ->
  (0 <= eta)%Q -> (eta <= 1 # 1000000000000000000000000000000)%Q ->
  ((1 - (4000000 # 9007199254740992)) * S <= t)%Q ->
  (p * t <= (1 + (1 # 9007199254740992)) * qw + eta * t)%Q ->
  (p <= 1 + (445 # 1000000000000))%Q.
Proof.
  intros Pw Uw Pt Pe Ue L U.
  assert (0 <= ((1 # 1000000000000000000000000000000) - eta) * t)%Q
    by (apply Qmult_le_0_compat; lra).
  apply Qnot_lt_le. intros C.
  assert ((1 + (445 # 1000000000000)) * t < p * t)%Q
    by (apply Qmult_lt_compat_r; assumption).
  lra.
Qed.

(** The second total is within 8.9e-10 of 1. *)
Lemma twice_total_bounds (n s' t2 : Q) :
  (0 <= n)%Q -> (n <= 4000000)%Q ->
  (1 - (445 # 1000000000000) <= s')%Q -> (s' <= 1 + (445 # 1000000000000))%Q ->
  ((1 - n * (1 # 9007199254740992)) * s' <= t2)%Q ->
  (t2 <= (1 + n * (1000000001 # 9007199254740992000000000)) * s')%Q ->
  (1 - (89 # 100000000000) <= t2)%Q /\ (t2 <= 1 + (89 # 100000000000))%Q.
Proof.
  intros Pn Un L U L2 U2.
  destruct (total_bounds_numeric n s' t2 Pn Un ltac:(lra) L2 U2) as [A B].
  split; lra.
Qed.

(** The second division moves a weight by at most 1e-9. *)
Lemma twice_weight_close (p t2 q eta : Q) :
  (0 <= p)%Q -> (p <= 1 + (445 # 1000000000000))%Q ->
  (1 - (89 # 100000000000) <= t2)%Q -> (t2 <= 1 + (89 # 100000000000))%Q ->
  (0 <= eta)%Q -> (eta <= 1 # 1000000000000000000000000000000)%Q ->
  (q * t2 <= (1 + (1 # 9007199254740992)) * p + eta * t2)%Q ->
  ((1 - (1 # 9007199254740992)) * p - eta * t2 <= q * t2)%Q ->
  (Qabs (q - p) <= 1 # 1000000000)%Q.
Proof.
  intros Pp Up L2 U2 Pe Ue U L.
  assert (0 <= eta * t2)%Q by (apply Qmult_le_0_compat; lra).
  assert (0 <= ((1 # 1000000000000000000000000000000) - eta) * t2)%Q
    by (apply Qmult_le_0_compat; lra).
  apply Qabs_Qle_condition. split.
  - apply Qnot_lt_le. intros C.
    assert (q * t2 < (p - (1 # 1000000000)) * t2)%Q
      by (apply Qmult_lt_compat_r; lra).
    assert (0 <= p * (1 + (89 # 100000000000) - t2))%Q
      by (apply Qmult_le_0_compat; lra).
    lra.
  - apply Qnot_lt_le. intros C.
    assert ((p + (1 # 1000000000)) * t2 < q * t2)%Q
      by (apply Qmult_lt_compat_r; lra).
    assert (0 <= p * (t2 - (1 - (89 # 100000000000))))%Q
      by (apply Qmult_le_0_compat; lra).
    lra.
Qed.

(** *** Weights [>= 0.0] *)

Lemma nonnegative_cases w :
  nonnegative w = true -> nonneg w = true \/ is_pinf w.
Proof.
  unfold nonnegative, nonneg, is_pinf. rewrite leb_spec.
  change (Prim2SF 0) with (S754_zero false).
  destruct (Prim2SF w) as [s|[]| |[] m e]; try discriminate; auto.
Qed.

Lemma nonneg_nonnegative w : nonneg w = true -> nonnegative w = true.
Proof.
  unfold nonnegative, nonneg. rewrite leb_spec.
  change (Prim2SF 0) with (S754_zero false).
  destruct (Prim2SF w) as [s|[]| |[] m e]; try discriminate; auto.
Qed.

Lemma float_add_pinf_l (a b : float) :
  is_pinf a -> nonnegative b = true -> is_pinf (a + b).
Proof.
  intros Pa Nb. destruct (nonnegative_cases b Nb) as [N|P].
  - apply float_add_pinf; assumption.
  - unfold is_pinf in *. rewrite add_spec, Pa, P. reflexivity.
Qed.

Lemma float_add_pinf_r (a b : float) :
  nonneg a = true -> is_pinf b -> is_pinf (a + b).
Proof.
  unfold is_pinf, nonneg. intros Na Pb. rewrite add_spec, Pb.
  destruct (Prim2SF a) as [s|s| |[] m e]; try discriminate; reflexivity.
Qed.

Lemma fold_add_pinf_nonnegative l : forall a,
  is_pinf a -> Forall (fun w => nonnegative w = true) l ->
  is_pinf (fold_left PrimFloat.add l a).
Proof.
  induction l as [|x l IH]; intros a Pa Nl; [exact Pa|].
  inversion Nl as [|? ? Nx Nl']; subst. cbn [fold_left].
  apply IH; [apply float_add_pinf_l; assumption | exact Nl'].
Qed.

(** A finite sum of floats [>= 0] has no infinite term. *)
Lemma fold_finite_all_nonneg l : forall a,
  nonneg a = true ->
  Forall (fun w => nonnegative w = true) l ->
  finite (fold_left PrimFloat.add l a) = true ->
  all_nonneg l.
Proof.
  induction l as [|x l IH]; intros a Na Nl F; [constructor|].
  inversion Nl as [|? ? Nx Nl']; subst. cbn [fold_left] in F.
  assert (Hinf : is_pinf (a + x) -> False).
  { intros P. pose proof (fold_add_pinf_nonnegative l _ P Nl') as P'.
    apply is_pinf_not_finite in P'. congruence. }
  destruct (nonnegative_cases x Nx) as [N|P].
  - constructor; [exact N|].
    destruct (float_add_error a x Na N) as [[P _]|(Nc & _)]; [destruct (Hinf P)|].
    exact (IH _ Nc Nl' F).
  - destruct (Hinf (float_add_pinf_r a x Na P)).
Qed.

Lemma nonneg_pos_nonzero (f : float) :
  nonneg f = true -> (0 < Qof f)%Q -> PrimFloat.eqb f 0 = false.
Proof.
  unfold nonneg, Qof. rewrite float_to_Q_SF, eqb_spec.
  change (Prim2SF 0) with (S754_zero false).
  destruct (Prim2SF f) as [s|s| |[] m e]; try discriminate; intros _ P.
  reflexivity.
Qed.

Lemma qlen_map {A B} (f : A -> B) l : qlen (map f l) = qlen l.
Proof. unfold qlen. now rewrite length_map. Qed.

Lemma qlen_le {A} (l : list A) (n : Z) :
  Z.of_nat (length l) <= n -> (qlen l <= inject_Z n)%Q.
Proof. intros L. unfold qlen. rewrite <- Zle_Qle. exact L. Qed.

(** The values after one normalization: non-negative, at most about 1
    each, with an exact sum within 4.45e-10 of 1 and a float sum within
    8.9e-10 of 1. *)
Lemma normalized_values (l : list float) :
  all_nonneg l -> Z.of_nat (length l) <= 4000000 ->
  let T := fold_left PrimFloat.add l 0%float in
  finite T = true -> PrimFloat.eqb T 0 = false ->
  let once := map (fun w => (w / T)%float) l in
  let T2 := fold_left PrimFloat.add once 0%float in
  all_nonneg once
  /\ (forall p, In p once -> (Qof p <= 1 + (445 # 1000000000000))%Q)
  /\ (1 - (445 # 1000000000000) <= qsum once)%Q
  /\ (qsum once <= 1 + (445 # 1000000000000))%Q
  /\ nonneg T2 = true
  /\ (1 - (89 # 100000000000) <= Qof T2)%Q
  /\ (Qof T2 <= 1 + (89 # 100000000000))%Q.
Proof.
  intros Nl Len T FT ZT once T2.
  pose proof (qlen_nonneg l) as Pn.
  pose proof (qlen_le l _ Len) as Un.
  change (inject_Z 4000000) with 4000000%Q in Un.
  pose proof (qsum_nonneg l Nl) as PS.
  assert (Hn : (qlen l * (1000000001 # 9007199254740992000000000)
                <= 1 # 1000000000)%Q) by lra.
  destruct (float_sum_bounds l Nl Hn) as [[P _]|(NT & LT & UT)].
  { apply is_pinf_not_finite in P. fold T in P. congruence. }
  fold T in NT, LT, UT.
  destruct (total_bounds_numeric _ _ _ Pn Un PS LT UT) as [LT' UT'].
  pose proof (nonneg_nonzero_pos T NT ZT) as PT.
  assert (Hw : forall w, In w l -> (Qof w <= 2 * Qof T)%Q).
  { intros w I. pose proof (qsum_member l w Nl I). lra. }
  destruct (map_div_bounds T l NT ZT Nl Hw) as (No & Uo & Lo). fold once in No, Uo, Lo.
  pose proof (pow2_pos (-1075)) as Pe. pose proof eta_small as Ue.
  destruct (once_sum_bounds (qlen l) (qsum l) (Qof T) (qsum once) (pow2 (-1075))
              Pn Un PS PT ltac:(lra) Ue LT' UT' Uo Lo) as [Ls Us].
  assert (Hn2 : (qlen once * (1000000001 # 9007199254740992000000000)
                 <= 1 # 1000000000)%Q).
  { unfold once. rewrite qlen_map. exact Hn. }
  destruct (float_sum_bounds once No Hn2) as [[_ O]|(NT2 & LT2 & UT2)].
  { exfalso. unfold once in O at 1. rewrite qlen_map in O. fold once in O.
    pose proof pow2_1023_large as L4.
    assert ((1 + qlen l * (1000000001 # 9007199254740992000000000)) * qsum once
            <= 2 * qsum once)%Q by (apply Qmult_le_compat_r; lra).
    lra. }
  fold T2 in NT2, LT2, UT2.
  unfold once in LT2 at 1, UT2 at 1. rewrite qlen_map in LT2, UT2. fold once in LT2, UT2.
  destruct (twice_total_bounds _ _ _ Pn Un Ls Us LT2 UT2) as [L2 U2].
  split; [exact No|]. split; [|tauto].
  intros p Ip. unfold once in Ip. apply in_map_iff in Ip.
  destruct Ip as (w & <- & Iw).
  assert (Nw : nonneg w = true) by (exact (proj1 (Forall_forall _ _) Nl w Iw)).
  destruct (float_div_bounds w T Nw NT ZT (Hw w Iw)) as (Np & Up & Lp).
  pose proof (nonneg_Qof _ Nw) as Pw.
  pose proof (qsum_member l w Nl Iw) as Mw.
  exact (once_weight_bound (qsum l) (Qof T) (Qof w) (Qof (w / T)) (pow2 (-1075))
           Pw Mw PT ltac:(lra) Ue LT' Up).
Qed.

(** Normalizing the values twice: the second total is not zero and the
    second division moves no weight by more than 1e-9. *)
Lemma renormalize_values (l : list float) :
  all_nonneg l -> Z.of_nat (length l) <= 4000000 ->
  let T := fold_left PrimFloat.add l 0%float in
  finite T = true -> PrimFloat.eqb T 0 = false ->
  let once := map (fun w => (w / T)%float) l in
  let T2 := fold_left PrimFloat.add once 0%float in
  PrimFloat.eqb T2 0 = false
  /\ Forall (fun p => nonneg p = true /\ nonneg (p / T2) = true
                      /\ (Qabs (Qof (p / T2) - Qof p) <= 1 # 1000000000)%Q) once.
Proof.
  intros Nl Len T FT ZT once T2.
  destruct (normalized_values l Nl Len FT ZT) as (No & Bp & _ & _ & NT2 & L2 & U2).
  fold T in No, Bp, NT2, L2, U2. fold once in No, Bp, NT2, L2, U2.
  fold T2 in NT2, L2, U2.
  pose proof (pow2_pos (-1075)) as Pe. pose proof eta_small as Ue.
  assert (ZT2 : PrimFloat.eqb T2 0 = false) by (apply nonneg_pos_nonzero; [exact NT2 | lra]).
  split; [exact ZT2|].
  apply Forall_forall. intros p Ip.
  assert (Np : nonneg p = true) by (exact (proj1 (Forall_forall _ _) No p Ip)).
  pose proof (nonneg_Qof _ Np) as Pp. pose proof (Bp p Ip) as Up.
  assert (Hp : (Qof p <= 2 * Qof T2)%Q) by lra.
  destruct (float_div_bounds p T2 Np NT2 ZT2 Hp) as (Nq & Uq & Lq).
  split; [exact Np|]. split; [exact Nq|].
  apply (twice_weight_close _ (Qof T2) _ (pow2 (-1075))); try assumption; lra.
Qed.

(** ** Normalization: the claims *)




(** *** Normalizing twice *)

Lemma values_scaled {K} (t : float) (self : dict K float) :
  values (V:=float) (scaled binary64 t self)
  = map (fun w => (w / t)%float) (values self).
Proof.
  unfold scaled, map_weights, values. rewrite !map_map. reflexivity.
Qed.

Lemma close_nonneg (p q : float) :
  nonneg p = true -> nonneg q = true ->
  (Qabs (Qof q - Qof p) <= 1 # 1000000000)%Q ->
  close (1 # 10 ^ 9) q p = true.
Proof.
  intros Np Nq C. unfold close, close_to.
  rewrite (nonneg_float_to_Q p Np), (nonneg_float_to_Q q Nq).
  apply Qle_bool_iff. exact C.
Qed.

(** Dividing every weight once more, by a total [t2] that moves none of
    them by more than 1e-9. *)
Lemma pmf_close_scaled {K} `{EqKey K} (t2 : float) (once : dict K float) :
  NoDup (keys once) ->
  Forall (fun p => nonneg p = true /\ nonneg (p / t2) = true
                   /\ (Qabs (Qof (p / t2) - Qof p) <= 1 # 1000000000)%Q)
         (values once) ->
  pmf_close (1 # 10 ^ 9) (scaled binary64 t2 once) once = true.
Proof.
  intros ND HF. unfold pmf_close. apply andb_true_iff. split.
  - unfold scaled, map_weights. rewrite length_map. apply Nat.eqb_refl.
  - apply forallb_forall. intros kv I.
    unfold scaled, map_weights in I. apply in_map_iff in I.
    destruct I as ([k p] & <- & I). cbn [fst snd].
    rewrite (In_get once k p ND I).
    assert (Ip : In p (values once)).
    { unfold values. apply in_map_iff. exists (k, p). split; [reflexivity | exact I]. }
    destruct (proj1 (Forall_forall _ _) HF p Ip) as (Np & Nq & C).
    apply close_nonneg; assumption.
Qed.

(** A large Pmf, without listing its entries. *)
Lemma fold_add_const {A} (b : float) (l : list A) : forall acc : float,
  fold_left PrimFloat.add (map (fun _ => b) l) acc
  = Nat.iter (length l) (fun x => (x + b)%float) acc.
Proof.
  induction l as [|i l IH]; intros acc; [reflexivity|].
  cbn [map fold_left length]. rewrite IH, Nat.iter_succ_r. reflexivity.
Qed.

Lemma total_loaded (a b : float) (m : positive) :
  total binary64 (loaded_pmf a b (Pos.to_nat m))
  = Pos.iter (fun x => (x + b)%float) (0 + a)%float m.
Proof.
  unfold total, loaded_pmf, values. cbn [map snd fold_left]. rewrite map_map.
  cbn [snd n_add n_zero binary64].
  rewrite (fold_add_const b), length_seq. symmetry. apply Pos2Nat.inj_iter.
Qed.

Lemma scaled_loaded (t a b : float) (n : nat) :
  scaled binary64 t (loaded_pmf a b n) = loaded_pmf (a / t) (b / t) n.
Proof.
  unfold scaled, map_weights, loaded_pmf. cbn [map fst snd]. rewrite map_map.
  reflexivity.
Qed.

Lemma NoDup_loaded (a b : float) (n : nat) : NoDup (keys (loaded_pmf a b n)).
Proof.
  unfold keys, loaded_pmf. cbn [map fst]. rewrite map_map. cbn [fst].
  change (0 :: map (fun i => Z.of_nat i) (seq 1 n))
    with (map Z.of_nat (seq 0 (S n))).
  apply Finite.Injective_map_NoDup; [|apply seq_NoDup].
  intros x y. apply Nat2Z.inj.
Qed.

Lemma nonnegative_loaded (a b : float) (n : nat) :
  nonnegative a = true -> nonnegative b = true ->
  forallb nonnegative (values (loaded_pmf a b n)) = true.
Proof.
  intros Na Nb. unfold values, loaded_pmf. cbn [map snd forallb]. rewrite Na.
  rewrite map_map. cbn [snd andb]. apply forallb_forall. intros w I.
  apply in_map_iff in I. destruct I as (i & <- & _). exact Nb.
Qed.

Lemma pmf_close_loaded (tol : Q) (a b a' b' : float) (n : nat) :
  close tol a' a = false ->
  pmf_close tol (loaded_pmf a' b' n) (loaded_pmf a b n) = false.
Proof.
  intros C. unfold pmf_close, loaded_pmf. cbn [forallb fst snd get].
  change (keqb 0 0) with true. cbn iota. rewrite C. apply andb_false_r.
Qed.

Lemma length_loaded (a b : float) (m : positive) :
  Z.of_nat (length (loaded_pmf a b (Pos.to_nat m))) = Z.pos m + 1.
Proof.
  unfold loaded_pmf. cbn [length]. rewrite length_map, length_seq.
  rewrite Nat2Z.inj_succ, positive_nat_Z. lia.
Qed.

Lemma normalize_loaded (a b t : float) (m : positive) :
  Pos.iter (fun x => (x + b)%float) (0 + a)%float m = t ->
  n_is_zero binary64 t = false ->
  total binary64 (loaded_pmf a b (Pos.to_nat m)) = t
  /\ normalize binary64 (loaded_pmf a b (Pos.to_nat m))
     = Returns (loaded_pmf (a / t) (b / t) (Pos.to_nat m)).
Proof.
  intros T NZ. rewrite <- total_loaded in T. split; [exact T|].
  rewrite normalize_nonzero; [|apply NoDup_loaded|rewrite T; exact NZ].
  rewrite T, scaled_loaded. reflexivity.
Qed.

(** The float sums of the Pmf {0: 1, 1: w, ..., 10^7: w} with
    w = 2^-53 + 2^-105, before and after [normalize()]: every addition of
    [w] rounds up to the next float. *)
Lemma loaded_totals :
  let w := 0x1.0000000000001p-53%float in
  let t := 0x1.000000098968p+0%float in
  Pos.iter (fun x => (x + w)%float) (0 + 1)%float 10000000 = t
  /\ Pos.iter (fun x => (x + w / t)%float) (0 + 1 / t)%float 10000000
     = 0x1.fffffff67698p-1%float.
Proof. split; vm_compute; reflexivity. Qed.

(** C6, as stated, fails in binary64, in three ways.  The Pmf
    {1: 2^1023, 2: 2^1023} has a nonzero total (it overflows to infinity):
    the first [normalize()] returns with both weights 0, and the second
    one raises.  The Pmf {1: 2^53, 2: 1, 3: -(2^53 - 6)} has the total 6:
    the first [normalize()] leaves weights whose float sum is 1.25, and the
    second one divides them all by 1.25.  The Pmf of 10,000,001 entries
    {0: 1, 1: w, ..., 10^7: w} with w = 2^-53 + 2^-105 has non-negative
    weights and the float total 1 + 10^7 * 2^-52: the first [normalize()]
    leaves weights whose float sum is about 1 - 1.11e-9, and the second
    one moves the weight of 0 by more than 1e-9. *)
Lemma normalize_twice_counterexample :
  (let self : dict Z float := [(1, 0x1p+1023%float); (2, 0x1p+1023%float)] in
   let once : dict Z float := [(1, 0%float); (2, 0%float)] in
   n_is_zero binary64 (total binary64 self) = false
   /\ normalize binary64 self = Returns once
   /\ normalize binary64 once = Raises ZeroDivisionError once)
  /\ (let self : dict Z float :=
        [(1, 9007199254740992%float); (2, 1%float);
         (3, (-9007199254740986)%float)] in
      exists once twice,
        total binary64 self = 6%float
        /\ normalize binary64 self = Returns once
        /\ total binary64 once = 1.25%float
        /\ normalize binary64 once = Returns twice
        /\ pmf_close (1 # 10 ^ 9) twice once = false)
  /\ (let self : dict Z float :=
        loaded_pmf 1 0x1.0000000000001p-53 (Pos.to_nat 10000000) in
      exists once twice,
        Z.of_nat (length self) = 10000001
        /\ NoDup (keys self)
        /\ forallb nonnegative (values self) = true
        /\ total binary64 self = 0x1.000000098968p+0%float
        /\ normalize binary64 self = Returns once
        /\ total binary64 once = 0x1.fffffff67698p-1%float
        /\ normalize binary64 once = Returns twice
        /\ pmf_close (1 # 10 ^ 9) twice once = false).
Proof.
  split; [repeat split|]. split.
  - eexists. eexists.
    split; [reflexivity|]. split; [reflexivity|]. split; [reflexivity|].
    split; [reflexivity|]. vm_compute. reflexivity.
  - destruct loaded_totals as [T1 T2].
    destruct (normalize_loaded 1 0x1.0000000000001p-53 0x1.000000098968p+0
                10000000 T1 eq_refl) as [E1 N1].
    destruct (normalize_loaded (1 / 0x1.000000098968p+0)
                (0x1.0000000000001p-53 / 0x1.000000098968p+0) 0x1.fffffff67698p-1
                10000000 T2 eq_refl) as [E2 N2].
    eexists. eexists.
    split; [apply (length_loaded _ _ 10000000)|].
    split; [apply NoDup_loaded|].
    split; [apply nonnegative_loaded; reflexivity|].
    split; [exact E1|]. split; [exact N1|].
    split; [exact E2|]. split; [exact N2|].
    apply pmf_close_loaded. vm_compute. reflexivity.
Qed.

(** C6 (amended): on a Pmf of at most 4,000,000 entries whose weights are
    all [>= 0.0] and whose total is finite and not 0, [normalize()]
    returns, a second [normalize()] returns as well, and it moves no
    weight by more than 1e-9.  A Pmf whose weights sum to exactly 1.0 is a
    fixed point of [normalize()].  In exact arithmetic [normalize()] is
    idempotent on every Pmf whose total is not 0. *)
Theorem normalize_idempotent :
  (forall (K : Type) (EK : EqKey K) (self : dict K float),
      NoDup (keys self) ->
      Z.of_nat (length self) <= 4000000 ->
      forallb nonnegative (values self) = true ->
      finite (total binary64 self) = true ->
      n_is_zero binary64 (total binary64 self) = false ->
      exists once twice,
        normalize binary64 self = Returns once
        /\ normalize binary64 once = Returns twice
        /\ pmf_close (1 # 10 ^ 9) twice once = true)
  /\ (forall (K : Type) (EK : EqKey K) (self : dict K float),
         NoDup (keys self) -> total binary64 self = 1%float ->
         normalize binary64 self = Returns self)
  /\ (forall (K : Type) (EK : EqKey K) (self : dict K Qc),
         NoDup (keys self) -> total exact self <> 0%Qc ->
         exists once, normalize exact self = Returns once
                      /\ normalize exact once = Returns once).
Proof.
  split; [|split].
  - intros K EK self ND Len Pos F NZ.
    assert (Nl : all_nonneg (values self)).
    { apply (fold_finite_all_nonneg (values self) 0%float eq_refl);
        [|exact F].
      apply Forall_forall. intros w I.
      exact (proj1 (forallb_forall _ _) Pos w I). }
    assert (Len' : Z.of_nat (length (values self)) <= 4000000).
    { unfold values. rewrite length_map. exact Len. }
    destruct (renormalize_values (values self) Nl Len' F NZ) as [NZ2 HF].
    pose proof (normalize_nonzero binary64 self ND NZ) as E1.
    pose proof (values_scaled (total binary64 self) self) as V1.
    assert (ND1 : NoDup (keys (scaled binary64 (total binary64 self) self))).
    { unfold scaled. rewrite keys_map_weights. exact ND. }
    revert E1 V1 ND1.
    generalize (scaled binary64 (total binary64 self) self). intros once E1 V1 ND1.
    assert (T1 : total binary64 once
                 = fold_left PrimFloat.add
                     (map (fun w => (w / total binary64 self)%float) (values self))
                     0%float)
      by (rewrite <- V1; reflexivity).
    exists once, (scaled binary64 (total binary64 once) once).
    split; [exact E1|].
    split.
    + apply normalize_nonzero; [exact ND1|]. rewrite T1. exact NZ2.
    + apply pmf_close_scaled; [exact ND1|]. rewrite T1, V1. exact HF.
  - intros K EK self ND T.
    rewrite normalize_nonzero; [|exact ND|rewrite T; reflexivity].
    rewrite T. now rewrite scaled_one_binary64.
  - intros K EK self ND NZ.
    destruct (exact_normalize_total self ND NZ) as [E T].
    eexists. split; [exact E|].
    rewrite normalize_nonzero.
    + rewrite T. now rewrite scaled_one_exact.
    + unfold scaled. now rewrite keys_map_weights.
    + rewrite T. reflexivity.
Qed.

#[warnings="-inexact-float"]
Lemma normalize_idempotent_witness :
  (let self : dict Z float := [(1, 1%float); (2, 3%float); (3, 0.1%float)] in
   exists once twice,
     normalize binary64 self = Returns once
     /\ normalize binary64 once = Returns twice
     /\ pmf_close (1 # 10 ^ 9) twice once = true)
  /\ (let self : dict Z float := [(1, 0.25%float); (2, 0.75%float)] in
      normalize binary64 self = Returns self)
  /\ (let self : dict Z Qc := [(1, Q2Qc 1); (2, Q2Qc 3)] in
      exists once, normalize exact self = Returns once
                   /\ normalize exact once = Returns once).
Proof.
  split; [|split].
  - apply (proj1 normalize_idempotent Z EqKey_Z).
    + distinct_keys.
    + cbn [length]. lia.
    + reflexivity.
    + reflexivity.
    + reflexivity.
  - apply (proj1 (proj2 normalize_idempotent) Z EqKey_Z).
    + distinct_keys.
    + reflexivity.
  - apply (proj2 (proj2 normalize_idempotent) Z EqKey_Z).
    + distinct_keys.
    + discriminate.
Defined.

(** ** Bayesian update: the claims *)

(** With a NaN total, every weight becomes NaN and nothing is raised. *)
Lemma normalize_nan {K} `{EqKey K} (self : dict K float) :
  NoDup (keys self) -> total binary64 self = nan ->
  normalize binary64 self = Returns (map_weights (fun _ _ => nan) self).
Proof.
  intros ND T.
  rewrite normalize_nonzero; [|exact ND|rewrite T; reflexivity].
  f_equal. unfold scaled, map_weights. apply map_ext. intros [k w]. simpl.
  now rewrite T, float_div_nan.
Qed.

(** C2, as stated, fails: a Suite can hold a weight that is not a real
    number, and then an observation that is impossible under every
    hypothesis returns, with NaN for every weight.  The code itself leads
    there from finite weights: with the weights 2^1023 and 1, a first
    observation of likelihood 10 under both hypotheses overflows and
    leaves the weights NaN and 0; a second observation of likelihood 0
    under both hypotheses then returns with both weights NaN. *)
Lemma bayesian_update_nan_counterexample :
  let likelihood (data : Z) (hypo : ref) : float :=
    if data =? 0 then 10%float else 0%float in
  let self : dict ref float := [(0%nat, 0x1p+1023%float); (1%nat, 1%float)] in
  let after : dict ref float := [(0%nat, nan); (1%nat, 0%float)] in
  bayesian_update binary64 likelihood self 0 = Returns after
  /\ after <> []
  /\ (forall hypo, n_is_zero binary64 (likelihood 1 hypo) = true)
  /\ bayesian_update binary64 likelihood after 1
     = Returns [(0%nat, nan); (1%nat, nan)].
Proof.
  split; [reflexivity|]. split; [discriminate|].
  split; [intros hypo|]; reflexivity.
Qed.

(** C2 (amended): on a Suite that is not empty and whose weights are all
    finite floats, an observation whose likelihood is 0 under every
    hypothesis makes [bayesian_update] raise ZeroDivisionError, from the
    call of [normalize()] on the updated weights; it does not return.
    When some weight is an infinity or NaN, the same observation makes it
    return, with every weight NaN.  In exact arithmetic it always
    raises. *)
Theorem bayesian_update_degenerate :
  (forall (Hypo Data : Type) (EK : EqKey Hypo)
          (likelihood : Data -> Hypo -> float)
          (self : dict Hypo float) (data : Data),
      self <> [] -> NoDup (keys self) ->
      (forall hypo w, In (hypo, w) self -> finite w = true) ->
      (forall hypo, In hypo (keys self) ->
                    n_is_zero binary64 (likelihood data hypo) = true) ->
      let updated := reweighted binary64 likelihood data self in
      normalize binary64 updated = Raises ZeroDivisionError updated
      /\ bayesian_update binary64 likelihood self data
         = Raises ZeroDivisionError updated)
  /\ (forall (Hypo Data : Type) (EK : EqKey Hypo)
             (likelihood : Data -> Hypo -> float)
             (self : dict Hypo float) (data : Data),
         NoDup (keys self) ->
         (exists hypo w, In (hypo, w) self /\ finite w = false) ->
         (forall hypo, In hypo (keys self) ->
                       n_is_zero binary64 (likelihood data hypo) = true) ->
         bayesian_update binary64 likelihood self data
         = Returns (map_weights (fun _ _ => nan) self))
  /\ (forall (Hypo Data : Type) (EK : EqKey Hypo)
             (likelihood : Data -> Hypo -> Qc)
             (self : dict Hypo Qc) (data : Data),
         self <> [] -> NoDup (keys self) ->
         (forall hypo, In hypo (keys self) -> likelihood data hypo = 0%Qc) ->
         let updated := reweighted exact likelihood data self in
         normalize exact updated = Raises ZeroDivisionError updated
         /\ bayesian_update exact likelihood self data
            = Raises ZeroDivisionError updated).
Proof.
  split; [|split].
  - intros Hypo Data EK likelihood self data NE ND F L updated.
    assert (R : normalize binary64 updated = Raises ZeroDivisionError updated).
    { apply normalize_zero.
      - subst updated. destruct self; [congruence | discriminate].
      - apply float_total_zero. intros w I.
        subst updated. unfold reweighted, map_weights, values in I.
        rewrite map_map in I. apply in_map_iff in I as ([hypo w0] & <- & I).
        simpl. apply float_mul_zero.
        + eapply F, I.
        + apply L. eapply In_keys, I. }
    split; [exact R|]. now rewrite bayesian_update_eq.
  - intros Hypo Data EK likelihood self data ND (hypo & w & I & F) L.
    rewrite bayesian_update_eq by exact ND.
    rewrite normalize_nan.
    + f_equal. unfold reweighted, map_weights. rewrite map_map. reflexivity.
    + unfold reweighted. now rewrite keys_map_weights.
    + apply float_fold_nan. unfold reweighted, map_weights, values.
      rewrite map_map. apply in_map_iff. exists (hypo, w). split; [|exact I].
      simpl. apply float_mul_nonfinite_zero; [exact F|].
      apply L. eapply In_keys, I.
  - intros Hypo Data EK likelihood self data NE ND L updated.
    assert (R : normalize exact updated = Raises ZeroDivisionError updated).
    { apply normalize_zero.
      - subst updated. destruct self; [congruence | discriminate].
      - apply exact_is_zero. apply exact_total_zero. intros w I.
        subst updated. unfold reweighted, map_weights, values in I.
        rewrite map_map in I. apply in_map_iff in I as ([hypo w0] & <- & I).
        simpl. rewrite (L hypo) by (eapply In_keys, I). ring. }
    split; [exact R|]. now rewrite bayesian_update_eq.
Qed.

Lemma bayesian_update_degenerate_witness :
  (let like := DiceSuite_likelihood binary64 (dice binary64) in
   let self := DiceSuite binary64 [0; 1; 2; 3; 4]%nat in
   let updated := reweighted binary64 like 30 self in
   normalize binary64 updated = Raises ZeroDivisionError updated
   /\ bayesian_update binary64 like self 30 = Raises ZeroDivisionError updated)
  /\ (let like : Z -> ref -> float := fun _ _ => 0%float in
      let self : dict ref float := [(0%nat, infinity); (1%nat, 1%float)] in
      bayesian_update binary64 like self 30
      = Returns (map_weights (fun _ _ => nan) self))
  /\ (let like : Z -> ref -> Qc := fun _ _ => 0%Qc in
      let self : dict ref Qc := [(0%nat, Q2Qc 1); (1%nat, Q2Qc 2)] in
      let updated := reweighted exact like 30 self in
      normalize exact updated = Raises ZeroDivisionError updated
      /\ bayesian_update exact like self 30 = Raises ZeroDivisionError updated).
Proof.
  split; [|split].
  - apply (proj1 bayesian_update_degenerate ref Z EqKey_nat).
    + discriminate.
    + distinct_keys.
    + intros hypo w I. vm_compute in I.
      repeat (destruct I as [E|I]; [inversion E; reflexivity|]). contradiction.
    + intros hypo I. vm_compute in I.
      repeat (destruct I as [E|I]; [subst hypo; reflexivity|]). contradiction.
  - apply (proj1 (proj2 bayesian_update_degenerate) ref Z EqKey_nat).
    + distinct_keys.
    + exists 0%nat, infinity. split; [now left | reflexivity].
    + reflexivity.
  - apply (proj2 (proj2 bayesian_update_degenerate) ref Z EqKey_nat).
    + discriminate.
    + distinct_keys.
    + reflexivity.
Defined.

(** C1: [bayesian_update] multiplies the weight of every hypothesis by its
    likelihood and only then normalizes: every weight is divided by the
    total of all the updated weights.  For the five dice with a uniform
    prior and the likelihood [hypo[data]] (1/sides on a face of the die, 0
    otherwise), whatever the order in which the Suite iterates over its
    hypotheses: after data = 6 the weights of d4, d6, d8, d12, d20 are 0,
    20/51, 15/51, 10/51, 6/51 within 1e-6, and after a second update with
    data = 8 they are 0, 0, 0.6233, 0.2770, 0.0997 to four digits. *)
Theorem dice_suite_posteriors :
  (forall (N : Number) (Hypo Data : Type) (EK : EqKey Hypo)
          (likelihood : Data -> Hypo -> num N)
          (self : dict Hypo (num N)) (data : Data),
      NoDup (keys self) ->
      let updated := reweighted N likelihood data self in
      bayesian_update N likelihood self data = normalize N updated
      /\ (n_is_zero N (total N updated) = false ->
          bayesian_update N likelihood self data
          = Returns (scaled N (total N updated) updated)))
  /\ (forall data, 1 <= data <= 24 -> dice_likelihood_ok data = true)
  /\ (forall order, Permutation [0; 1; 2; 3; 4]%nat order ->
                    dice_posteriors_ok order = true).
Proof.
  split; [|split].
  - intros N Hypo Data EK likelihood self data ND updated.
    assert (E : bayesian_update N likelihood self data = normalize N updated)
      by now apply bayesian_update_eq.
    split; [exact E|]. intros NZ. rewrite E. apply normalize_nonzero; [|exact NZ].
    subst updated. unfold reweighted. now rewrite keys_map_weights.
  - intros data R.
    assert (I : In data (range 1 25)).
    { unfold range. apply in_map_iff. exists (Z.to_nat (data - 1)).
      split; [lia|]. apply in_seq. lia. }
    clear R. revert data I. apply forallb_forall. vm_compute. reflexivity.
  - intros order P. apply perms_complete in P.
    revert order P. apply forallb_forall. vm_compute. reflexivity.
Qed.

Lemma dice_suite_posteriors_witness :
  (let like := DiceSuite_likelihood binary64 (dice binary64) in
   let self := DiceSuite binary64 [0; 1; 2; 3; 4]%nat in
   let updated := reweighted binary64 like 6 self in
   bayesian_update binary64 like self 6
   = Returns (scaled binary64 (total binary64 updated) updated))
  /\ dice_likelihood_ok 6 = true
  /\ dice_posteriors_ok [0; 1; 2; 3; 4]%nat = true.
Proof.
  split; [|split].
  - apply (proj1 dice_suite_posteriors binary64 ref Z EqKey_nat).
    + distinct_keys.
    + reflexivity.
  - apply (proj1 (proj2 dice_suite_posteriors)). lia.
  - apply (proj2 (proj2 dice_suite_posteriors)). apply Permutation_refl.
Defined.

(** ** The object store *)

Section HeapFacts.
Variable N : Number.
Context {K : Type} `{EqKey K}.
Implicit Type h : heap N (K:=K).


Lemma deref_store_other h r r' d :
  r <> r' -> deref N (store N h r d) r' = deref N h r'.
Proof.
  unfold deref. revert r r'.
  induction h as [|o h IH]; intros [|r] [|r'] NE; simpl; auto; try congruence.
Qed.


Lemma deref_app_old h l r :
  (r < length h)%nat -> deref N (h ++ l) r = deref N h r.
Proof. intros L. unfold deref. now apply app_nth1. Qed.

Lemma deref_app_new h d : deref N (h ++ [d]) (length h) = d.
Proof. unfold deref. rewrite app_nth2, Nat.sub_diag by lia. reflexivity. Qed.

Lemma store_app_new h d d' : store N (h ++ [d]) (length h) d' = h ++ [d'].
Proof. induction h as [|o h IH]; simpl; [reflexivity | now rewrite IH]. Qed.

Variable key_add : K -> K -> K.

(** The only object [pmf[key] += w] writes is [pmf]. *)
Lemma iadd_item_frame h pmf key w r :
  r <> pmf -> deref N (iadd_item N h pmf key w) r = deref N h r.
Proof.
  intros NE. unfold iadd_item. rewrite getitem_st_eq.
  apply deref_store_other. congruence.
Qed.

Lemma iadd_item_new h d key w :
  iadd_item N (h ++ [d]) (length h) key w
  = h ++ [accumulate N d (key, w)].
Proof.
  unfold iadd_item. rewrite getitem_st_eq, deref_app_new.
  apply store_app_new.
Qed.

Lemma add_inner_new h d key1 prob1 its :
  add_inner N key_add (length h) key1 prob1 its (h ++ [d])
  = h ++ [fold_left (accumulate N)
            (map (fun kp => (key_add key1 (fst kp), n_mul N prob1 (snd kp))) its)
            d].
Proof.
  unfold add_inner. revert d.
  induction its as [|kp its IH]; intros d; simpl; [reflexivity|].
  rewrite iadd_item_new. apply IH.
Qed.

Lemma products_cons kp1 p q :
  products N key_add (kp1 :: p) q
  = map (fun kp => (key_add (fst kp1) (fst kp), n_mul N (snd kp1) (snd kp))) q
    ++ products N key_add p q.
Proof.
  unfold products. simpl. rewrite map_app, map_map. reflexivity.
Qed.

Lemma combine_sum_fold p q d :
  fold_left
    (fun d kp1 =>
       fold_left
         (fun d kp2 =>
            setitem d (key_add (fst kp1) (fst kp2))
              (n_add N (weight_of N d (key_add (fst kp1) (fst kp2)))
                       (n_mul N (snd kp1) (snd kp2))))
         q d)
    p d
  = fold_left (accumulate N) (products N key_add p q) d.
Proof.
  revert d. induction p as [|kp1 p IH]; intros d; [reflexivity|].
  cbn [fold_left]. rewrite products_cons, fold_left_app, IH. f_equal.
  generalize d. clear. induction q as [|kp2 q IHq]; intros d; simpl;
    [reflexivity | apply IHq].
Qed.

Lemma combine_sum_products p q :
  combine_sum N key_add p q
  = fold_left (accumulate N) (products N key_add p q) [].
Proof. apply combine_sum_fold. Qed.

(** [__add__] allocates one object, fills it, and leaves the rest of the
    store as it was. *)
Lemma Pmf_add_eq h self other :
  (self < length h)%nat -> (other < length h)%nat ->
  Pmf_add N key_add h self other
  = (h ++ [combine_sum N key_add (deref N h self) (deref N h other)],
     length h).
Proof.
  intros Ls Lo. unfold Pmf_add, alloc, items. f_equal.
  rewrite deref_app_old by exact Ls.
  rewrite combine_sum_products.
  generalize (deref N h self) as p. generalize ([] : dict K (num N)) as d.
  intros d p. revert d. induction p as [|kp1 p IH]; intros d; [reflexivity|].
  cbn [fold_left]. rewrite deref_app_old by exact Lo.
  rewrite add_inner_new, IH, products_cons, fold_left_app. reflexivity.
Qed.

(** *** The weights and the keys of a sum *)

Lemma weight_of_accumulate (ts : list (K * num N)) (d : dict K (num N)) k :
  weight_of N (fold_left (accumulate N) ts d) k
  = fold_left (n_add N)
      (map snd (filter (fun t => keqb (fst t) k) ts)) (weight_of N d k).
Proof.
  revert d. induction ts as [|[k' w] ts IH]; intros d; [reflexivity|].
  cbn [fold_left]. rewrite IH. cbn [fst snd filter].
  assert (W : weight_of N (accumulate N d (k', w)) k
              = if keqb k' k then n_add N (weight_of N d k') w
                else weight_of N d k).
  { unfold accumulate, weight_of. cbn [fst snd]. apply getitem_setitem. }
  rewrite W. destruct (keqb k' k) eqn:E; [|reflexivity].
  apply keqb_eq in E. subst k'. reflexivity.
Qed.

Lemma In_keys_accumulate (ts : list (K * num N)) (d : dict K (num N)) k :
  In k (keys (fold_left (accumulate N) ts d))
  <-> In k (keys d) \/ In k (map fst ts).
Proof.
  revert d. induction ts as [|[k' w] ts IH]; intros d; simpl; [tauto|].
  rewrite IH. unfold accumulate. rewrite In_keys_setitem. simpl.
  intuition congruence.
Qed.

Lemma In_keys_combine_sum p q k :
  In k (keys (combine_sum N key_add p q))
  <-> exists kp1 kp2, In kp1 p /\ In kp2 q
                      /\ key_add (fst kp1) (fst kp2) = k.
Proof.
  rewrite combine_sum_products, In_keys_accumulate. simpl.
  unfold products. rewrite map_map, in_map_iff. simpl. split.
  - intros [[]|([kp1 kp2] & E & I)]. apply in_prod_iff in I.
    exists kp1, kp2. tauto.
  - intros (kp1 & kp2 & I1 & I2 & E). right. exists (kp1, kp2).
    split; [exact E|]. now apply in_prod_iff.
Qed.


End HeapFacts.

(** ** The keys of repeated sums *)

Section KeysOfSums.
Variable N : Number.
Context {K : Type} `{EqKey K}.
Variable key_add : K -> K -> K.
Implicit Types p q r : dict K (num N).

Local Notation "p [+] q" := (combine_sum N key_add p q)
  (at level 50, left associativity).


Hypothesis key_add_assoc :
  forall a b c, key_add (key_add a b) c = key_add a (key_add b c).
Hypothesis key_add_comm : forall a b, key_add a b = key_add b a.


End KeysOfSums.

(** ** Sums of distributions: the claims *)

(** C4: [__add__] returns a new Pmf; its keys are the sums [key1 + key2]
    over the pairs of entries of the operands, and its weight at [k] is
    the sum, in the order of the two loops, of [prob1 * prob2] over the
    pairs with [key1 + key2 = k].  For two fair six-sided dice the support
    is exactly 2 to 12, P(7) = 6/36, P(2) = P(12) = 1/36 and the eleven
    probabilities sum to 1, within 1e-9. *)
Theorem combine_sum_spec :
  (forall (N : Number) (K : Type) (EK : EqKey K) (key_add : K -> K -> K)
          (p q : dict K (num N)) (k : K),
      weight_of N (combine_sum N key_add p q) k
      = fold_left (n_add N) (terms_at N key_add p q k) (n_zero N)
      /\ (In k (keys (combine_sum N key_add p q))
          <-> exists kp1 kp2, In kp1 p /\ In kp2 q
                              /\ key_add (fst kp1) (fst kp2) = k))
  /\ (forall (N : Number) (K : Type) (EK : EqKey K) (key_add : K -> K -> K)
             (h : heap N (K:=K)) (self other : ref),
         (self < length h)%nat -> (other < length h)%nat ->
         Pmf_add N key_add h self other
         = (h ++ [combine_sum N key_add (deref N h self) (deref N h other)],
            length h))
  /\ two_dice_ok (combine_sum binary64 Z.add d6 d6) = true
  /\ (let '(h, two) := Pmf_add binary64 Z.add [d6] 0%nat 0%nat in
      two_dice_ok (deref binary64 h two)) = true.
Proof.
  split; [|split; [|split]].
  - intros N K EK key_add p q k. split.
    + rewrite combine_sum_products. apply weight_of_accumulate.
    + apply In_keys_combine_sum.
  - intros N K EK key_add h self other. apply Pmf_add_eq.
  - vm_compute. reflexivity.
  - vm_compute. reflexivity.
Qed.

Lemma combine_sum_spec_witness :
  Pmf_add binary64 Z.add [d6] 0%nat 0%nat
  = ([d6] ++ [combine_sum binary64 Z.add (deref binary64 [d6] 0%nat)
                (deref binary64 [d6] 0%nat)], length [d6]).
Proof.
  apply (proj1 (proj2 combine_sum_spec) binary64 Z EqKey_Z Z.add [d6]);
    simpl; lia.
Defined.

(** C10: during [p + q] every write goes to the Pmf created by the call,
    at an address that was not in use; after the call the store holds the
    objects it held before, with the contents they had, [p] and [q] among
    them (also when [p] and [q] are the same object), and the result. *)
Theorem Pmf_add_frame :
  forall (N : Number) (K : Type) (EK : EqKey K) (key_add : K -> K -> K)
         (h : heap N (K:=K)) (self other : ref),
    (self < length h)%nat -> (other < length h)%nat ->
    let h' := fst (Pmf_add N key_add h self other) in
    let pmf := snd (Pmf_add N key_add h self other) in
    pmf = length h
    /\ (forall (h1 : heap N (K:=K)) key w r, r <> pmf ->
          deref N (iadd_item N h1 pmf key w) r = deref N h1 r)
    /\ (forall r, (r < length h)%nat -> deref N h' r = deref N h r)
    /\ deref N h' self = deref N h self
    /\ deref N h' other = deref N h other
    /\ h' = h ++ [deref N h' pmf].
Proof.
  intros N K EK key_add h self other Ls Lo.
  rewrite (Pmf_add_eq N key_add h self other Ls Lo). cbn [fst snd].
  split; [reflexivity|]. split; [|split; [|split; [|split]]].
  - intros h1 key w r NE. now apply iadd_item_frame.
  - intros r L. now apply deref_app_old.
  - now apply deref_app_old.
  - now apply deref_app_old.
  - now rewrite deref_app_new.
Qed.

Lemma Pmf_add_frame_witness :
  let h : heap binary64 (K:=Z) := [d6] in
  let h' := fst (Pmf_add binary64 Z.add h 0%nat 0%nat) in
  let pmf := snd (Pmf_add binary64 Z.add h 0%nat 0%nat) in
  pmf = length h
  /\ (forall (h1 : heap binary64 (K:=Z)) key w r, r <> pmf ->
        deref binary64 (iadd_item binary64 h1 pmf key w) r = deref binary64 h1 r)
  /\ (forall r, (r < length h)%nat -> deref binary64 h' r = deref binary64 h r)
  /\ deref binary64 h' 0%nat = deref binary64 h 0%nat
  /\ deref binary64 h' 0%nat = deref binary64 h 0%nat
  /\ h' = h ++ [deref binary64 h' pmf].
Proof.
  apply (Pmf_add_frame binary64 Z EqKey_Z Z.add [d6] 0%nat 0%nat); simpl; lia.
Defined.

(** ** Finite sums of rationals *)

Section Sums.
Local Open Scope Qc_scope.

Lemma ssum_ext {A} (f g : A -> Qc) (l : list A) :
  (forall a, f a = g a) -> ssum f l = ssum g l.
Proof.
  intros E. induction l as [|a l IH]; simpl; [reflexivity|].
  now rewrite E, IH.
Qed.

Lemma ssum_app {A} (f : A -> Qc) (l1 l2 : list A) :
  ssum f (l1 ++ l2) = ssum f l1 + ssum f l2.
Proof.
  induction l1 as [|a l1 IH]; simpl; [ring|]. rewrite IH. ring.
Qed.

Lemma ssum_scale {A} (c : Qc) (f : A -> Qc) (l : list A) :
  c * ssum f l = ssum (fun a => c * f a) l.
Proof.
  induction l as [|a l IH]; simpl; [ring|]. rewrite <- IH. ring.
Qed.

Lemma ssum_plus {A} (f g : A -> Qc) (l : list A) :
  ssum (fun a => f a + g a) l = ssum f l + ssum g l.
Proof.
  induction l as [|a l IH]; simpl; [ring|]. rewrite IH. ring.
Qed.


Lemma ssum_map {A B} (g : B -> A) (f : A -> Qc) (l : list B) :
  ssum f (map g l) = ssum (fun b => f (g b)) l.
Proof. induction l as [|b l IH]; simpl; [reflexivity|]. now rewrite IH. Qed.


Lemma ssum_list_prod {A B} (f : A * B -> Qc) (l : list A) (m : list B) :
  ssum f (list_prod l m) = ssum (fun a => ssum (fun b => f (a, b)) m) l.
Proof.
  induction l as [|a l IH]; simpl; [reflexivity|].
  now rewrite ssum_app, ssum_map, IH.
Qed.

Lemma fold_left_ssum (l : list Qc) (a : Qc) :
  fold_left Qcplus l a = a + ssum (fun w => w) l.
Proof.
  revert a. induction l as [|w l IH]; intros a; simpl; [ring|].
  rewrite IH. ring.
Qed.

End Sums.

(** ** Sums of distributions in exact arithmetic *)

Section ExactSum.
Local Open Scope Qc_scope.
Context {K : Type} `{EqKey K}.
Variable key_add : K -> K -> K.
Implicit Types p q r : dict K Qc.

Local Notation "p [+] q" := (combine_sum exact key_add p q)
  (at level 50, left associativity).

Lemma ssum_products (g : K * Qc -> Qc) p q :
  ssum g (products exact key_add p q)
  = ssum (fun kp1 =>
            ssum (fun kp2 => g (key_add (fst kp1) (fst kp2),
                                snd kp1 * snd kp2)) q) p.
Proof.
  unfold products. now rewrite ssum_map, ssum_list_prod.
Qed.


Lemma dot_cons (F : K -> Qc) (a : K) (x : Qc) (d : dict K Qc) :
  dot F ((a, x) :: d) = x * F a + dot F d.
Proof. reflexivity. Qed.

Lemma dot_accumulate (F : K -> Qc) (d : dict K Qc) (t : K * Qc) :
  dot F (accumulate exact d t) = dot F d + snd t * F (fst t).
Proof.
  destruct t as [k w]. unfold accumulate, weight_of. cbn [fst snd].
  rewrite getitem_eq. change (n_add exact) with Qcplus.
  change (n_zero exact) with 0. change (num exact) with Qc in *.
  induction d as [|[a x] d IH].
  - cbn [get setitem]. rewrite dot_cons. unfold dot. simpl. ring.
  - cbn [get setitem]. destruct (keqb a k) eqn:E.
    + apply keqb_eq in E. subst a. rewrite !dot_cons. ring.
    + rewrite !dot_cons, IH. ring.
Qed.

Lemma dot_fold_accumulate (F : K -> Qc) (ts : list (K * Qc)) (d : dict K Qc) :
  dot F (fold_left (accumulate exact) ts d)
  = dot F d + ssum (fun t => snd t * F (fst t)) ts.
Proof.
  revert d. induction ts as [|t ts IH]; intros d; simpl; [ring|].
  rewrite IH, dot_accumulate. ring.
Qed.

Lemma dot_combine (F : K -> Qc) p q :
  dot F (p [+] q)
  = ssum (fun kp1 =>
            ssum (fun kp2 =>
                    snd kp1 * snd kp2 * F (key_add (fst kp1) (fst kp2))) q) p.
Proof.
  rewrite combine_sum_products, dot_fold_accumulate, ssum_products.
  unfold dot. simpl. ring.
Qed.

Hypothesis key_add_assoc :
  forall a b c, key_add (key_add a b) c = key_add a (key_add b c).
Hypothesis key_add_comm : forall a b, key_add a b = key_add b a.




End ExactSum.


(** ** Sums of distributions in binary64: the order of the operands *)








(** ** Identity of Pmf objects *)

(** C9: [pmf_a == pmf_b] is true iff the two are the same object, and two
    objects have the same hash iff they are the same object; so two
    distinct Pmf objects with the same keys and weights are not equal and
    have distinct hashes. *)
Theorem Pmf_eq_identity :
  forall (N : Number) (K : Type) (h : heap N (K:=K)) (pmf_a pmf_b : ref),
    (Pmf_eq pmf_a pmf_b = true <-> pmf_a = pmf_b)
    /\ (Pmf_hash pmf_a = Pmf_hash pmf_b <-> pmf_a = pmf_b)
    /\ (pmf_a <> pmf_b -> deref N h pmf_a = deref N h pmf_b ->
        Pmf_eq pmf_a pmf_b = false /\ Pmf_hash pmf_a <> Pmf_hash pmf_b).
Proof.
  intros N K h pmf_a pmf_b. unfold Pmf_eq, Pmf_hash, object_id.
  split; [apply Nat.eqb_eq|]. split; [lia|].
  intros NE _. split; [now apply Nat.eqb_neq | lia].
Qed.

Lemma Pmf_eq_identity_witness :
  let h : heap binary64 (K:=Z) := [d6; d6] in
  dict_eq PrimFloat.eqb (deref binary64 h 0%nat) (deref binary64 h 1%nat) = true
  /\ Pmf_eq 0%nat 1%nat = false /\ Pmf_hash 0%nat <> Pmf_hash 1%nat.
Proof.
  split; [reflexivity|].
  apply (proj2 (proj2 (Pmf_eq_identity binary64 Z [d6; d6] 0%nat 1%nat)));
    [discriminate | reflexivity].
Defined.


(** ** The notebook's own outputs *)

(** The embedding computes what the cells of the notebook printed: the
    six-sided die, the sum of two of them, the five dice (floats printed
    by [repr], which determines them), and the posteriors after the rolls
    6 and 8 (printed to twelve significant digits). *)
Lemma notebook_outputs :
  make_die binary64 6 = Returns printed_d6
  /\ combine_sum binary64 Z.add d6 d6 = printed_d6_twice
  /\ dice binary64 = printed_dice
  /\ (let like := DiceSuite_likelihood binary64 (dice binary64) in
      exists after6 after8,
        bayesian_update binary64 like (DiceSuite binary64 [0; 1; 2; 3; 4]%nat) 6
        = Returns after6
        /\ bayesian_update binary64 like after6 8 = Returns after8
        /\ weights_close (5 # 10 ^ 13) after6 printed_after_6 = true
        /\ weights_close (5 # 10 ^ 13) after8 printed_after_8 = true).
Proof.
  split; [vm_compute; reflexivity|].
  split; [vm_compute; reflexivity|].
  split; [vm_compute; reflexivity|].
  cbv zeta. eexists. eexists.
  split; [vm_compute; reflexivity|].
  split; [vm_compute; reflexivity|].
  split; vm_compute; reflexivity.
Qed.

(** * Part IV: further properties of the notebook's functions *)

(** ** Anagrams and spelling *)

Lemma is_anagram_Permutation {K} `{EqKey K} (a b : list K) :
  is_anagram a b = true <-> Permutation a b.
Proof.
  rewrite is_anagram_occ, (Permutation_count_occ key_dec).
  unfold occ. split; intros E x; specialize (E x); lia.
Qed.

Lemma Multiset_le_occ {K} `{EqKey K} (word tiles : list K) :
  Multiset_le (Multiset word) (Multiset tiles) = true <->
  forall x, occ x word <= occ x tiles.
Proof.
  unfold Multiset_le, Multiset. rewrite is_subset_true. split.
  - intros A x. pose proof (occ_nonneg x word) as P.
    pose proof (occ_nonneg x tiles) as Q.
    destruct (Z.eq_dec (occ x word) 0) as [->|NZ]; [exact Q|].
    rewrite <- (getitem_IntCounter tiles). apply A.
    apply In_IntCounter. lia.
  - intros A x count I. apply In_IntCounter in I as [-> _].
    rewrite getitem_IntCounter. apply A.
Qed.

Lemma occ_app {K} `{EqKey K} (x : K) (l m : list K) :
  occ x (l ++ m) = occ x l + occ x m.
Proof. unfold occ. rewrite count_occ_app. lia. Qed.

Lemma occ_Permutation {K} `{EqKey K} (x : K) (l m : list K) :
  Permutation l m -> occ x l = occ x m.
Proof.
  intros P. unfold occ. f_equal.
  now apply (Permutation_count_occ key_dec).
Qed.

(** What is left of the tiles once a word has been spelled. *)
Lemma occ_le_leftover {K} `{EqKey K} (word tiles : list K) :
  (forall x, occ x word <= occ x tiles) ->
  exists rest, Permutation (word ++ rest) tiles.
Proof.
  revert tiles. induction word as [|a word IH]; intros tiles A.
  - exists tiles. apply Permutation_refl.
  - assert (I : In a tiles).
    { apply (count_occ_In key_dec). specialize (A a).
      rewrite occ_cons, keqb_refl in A. pose proof (occ_nonneg a word).
      unfold occ in *. lia. }
    apply in_split in I as (t1 & t2 & ->).
    destruct (IH (t1 ++ t2)) as [rest P].
    + intros x. specialize (A x).
      rewrite occ_cons in A. rewrite !occ_app, occ_cons in A.
      rewrite occ_app. lia.
    + exists rest. simpl. rewrite P. apply Permutation_middle.
Qed.

(** X1: [is_anagram] is an equivalence relation, and anagrams have the
    same length. *)
Theorem is_anagram_equivalence :
  forall (K : Type) (EK : EqKey K) (a b c : list K),
    is_anagram a a = true
    /\ is_anagram a b = is_anagram b a
    /\ (is_anagram a b = true -> is_anagram b c = true ->
        is_anagram a c = true)
    /\ (is_anagram a b = true -> length a = length b).
Proof.
  intros K EK a b c. split; [|split; [|split]].
  - now apply is_anagram_Permutation.
  - destruct (is_anagram a b) eqn:E1, (is_anagram b a) eqn:E2;
      try reflexivity.
    + apply is_anagram_Permutation, Permutation_sym,
        is_anagram_Permutation in E1. congruence.
    + apply is_anagram_Permutation, Permutation_sym,
        is_anagram_Permutation in E2. congruence.
  - rewrite !is_anagram_Permutation. apply Permutation_trans.
  - rewrite is_anagram_Permutation. apply Permutation_length.
Qed.

Lemma is_anagram_equivalence_witness :
  is_anagram (chars "listen") (chars "tinsel") = true
  /\ length (chars "listen") = length (chars "silent").
Proof.
  split.
  - apply (proj1 (proj2 (proj2 (is_anagram_equivalence ascii EqKey_ascii
             (chars "listen") (chars "silent") (chars "tinsel")))));
      reflexivity.
  - apply (proj2 (proj2 (proj2 (is_anagram_equivalence ascii EqKey_ascii
             (chars "listen") (chars "silent") (chars "tinsel"))))).
    reflexivity.
Defined.

(** X2: two words are anagrams exactly when each can be spelled with the
    letters of the other. *)
Theorem is_anagram_can_spell :
  forall word1 word2 : string,
    is_anagram (chars word1) (chars word2)
    = can_spell word1 word2 && can_spell word2 word1.
Proof.
  intros word1 word2.
  destruct (is_anagram (chars word1) (chars word2)) eqn:E; symmetry.
  - rewrite is_anagram_occ in E.
    apply andb_true_iff. split; apply can_spell_occ; intros c;
      rewrite (E c); lia.
  - apply andb_false_iff.
    destruct (can_spell word1 word2) eqn:S1; [|now left].
    destruct (can_spell word2 word1) eqn:S2; [|now right].
    exfalso. rewrite can_spell_occ in S1, S2.
    assert (T : is_anagram (chars word1) (chars word2) = true).
    { apply is_anagram_occ. intros c. specialize (S1 c). specialize (S2 c).
      lia. }
    congruence.
Qed.

(** X3: on multisets (Counters without negative counts) [is_subset] is a
    partial order: reflexive, transitive, and two multisets that are
    subsets of each other give every value the same count. *)
Theorem is_subset_partial_order :
  forall (K : Type) (EK : EqKey K) (a b c : dict K Z),
    NoDup (keys a) -> NoDup (keys b) ->
    (forall value n, In (value, n) a -> 0 <= n) ->
    (forall value n, In (value, n) b -> 0 <= n) ->
    (forall value n, In (value, n) c -> 0 <= n) ->
    fst (is_subset a a) = true
    /\ (fst (is_subset a b) = true -> fst (is_subset b c) = true ->
        fst (is_subset a c) = true)
    /\ (fst (is_subset a b) = true -> fst (is_subset b a) = true ->
        forall value, getitem 0 a value = getitem 0 b value).
Proof.
  intros K EK a b c NDa NDb NNa NNb NNc. split; [|split].
  - apply is_subset_true. intros value count I.
    rewrite getitem_eq, (In_get a value count NDa I). lia.
  - rewrite !is_subset_true. intros AB BC value count I.
    specialize (AB value count I).
    rewrite getitem_eq in AB. destruct (get b value) as [v|] eqn:G.
    + apply get_Some_In in G. specialize (BC value v G). lia.
    + pose proof (getitem_nonneg c value NNc). lia.
  - rewrite !is_subset_true. intros AB BA value.
    rewrite !getitem_eq.
    destruct (get a value) as [x|] eqn:Ga, (get b value) as [y|] eqn:Gb;
      try reflexivity.
    + pose proof (get_Some_In _ _ _ Ga) as Ia.
      pose proof (get_Some_In _ _ _ Gb) as Ib.
      specialize (AB value x Ia). specialize (BA value y Ib).
      rewrite getitem_eq in AB, BA. rewrite Gb in AB. rewrite Ga in BA. lia.
    + pose proof (get_Some_In _ _ _ Ga) as Ia.
      specialize (AB value x Ia). rewrite getitem_eq, Gb in AB.
      specialize (NNa value x Ia). lia.
    + pose proof (get_Some_In _ _ _ Gb) as Ib.
      specialize (BA value y Ib). rewrite getitem_eq, Ga in BA.
      specialize (NNb value y Ib). lia.
Qed.

Lemma is_subset_partial_order_witness :
  let a : dict ascii Z := Multiset (chars "GYSY") in
  let b : dict ascii Z := Multiset (chars "SYZYGY") in
  let c : dict ascii Z := Multiset (chars "AGSYYYZ") in
  fst (is_subset a a) = true
  /\ (fst (is_subset a b) = true -> fst (is_subset b c) = true ->
      fst (is_subset a c) = true)
  /\ (fst (is_subset a b) = true -> fst (is_subset b a) = true ->
      forall value, getitem 0 a value = getitem 0 b value).
Proof.
  apply (is_subset_partial_order ascii EqKey_ascii).
  - apply NoDup_keys_Counter.
  - apply NoDup_keys_Counter.
  - intros value n I. apply In_IntCounter in I. lia.
  - intros value n I. apply In_IntCounter in I. lia.
  - intros value n I. apply In_IntCounter in I. lia.
Defined.

(** X4: a word can be spelled with the tiles exactly when the tiles are a
    rearrangement of the letters of the word and some leftover tiles; in
    particular the word is then no longer than the tiles, and the empty
    word can always be spelled. *)
Theorem can_spell_leftover :
  forall word tiles : string,
    (can_spell word tiles = true <->
     exists rest, Permutation (chars word ++ rest) (chars tiles))
    /\ (can_spell word tiles = true ->
        (length (chars word) <= length (chars tiles))%nat)
    /\ can_spell "" tiles = true.
Proof.
  intros word tiles.
  assert (L : can_spell word tiles = true <->
              exists rest, Permutation (chars word ++ rest) (chars tiles)).
  { rewrite can_spell_occ. split.
    - apply occ_le_leftover.
    - intros [rest P] letter.
      rewrite <- (occ_Permutation letter _ _ P), occ_app.
      pose proof (occ_nonneg letter rest). lia. }
  split; [exact L|]. split.
  - intros S. apply L in S as [rest P]. apply Permutation_length in P.
    rewrite length_app in P. lia.
  - apply can_spell_occ. intros letter. simpl. apply occ_nonneg.
Qed.

Lemma can_spell_leftover_witness :
  (length (chars "SYZYGY") <= length (chars "AGSYYYZ"))%nat.
Proof.
  apply (proj1 (proj2 (can_spell_leftover "SYZYGY" "AGSYYYZ"))).
  reflexivity.
Defined.

(** ** Normalization: what it keeps and where it breaks *)

Section NormalizeKeys.
Variable N : Number.
Context {K : Type} `{EqKey K}.

Lemma normalize_loop_keys (ks : list K) (t : num N) (self : dict K (num N)) :
  (forall k, In k ks -> In k (keys self)) ->
  keys (state_of (normalize_loop N ks t self)) = keys self.
Proof.
  revert self. induction ks as [|k ks IH]; intros self A; [reflexivity|].
  simpl. destruct (truediv N (weight_of N self k) t); [|reflexivity].
  rewrite IH.
  - apply keys_setitem_In. apply A. now left.
  - intros k' I. rewrite keys_setitem_In by (apply A; now left).
    apply A. now right.
Qed.

Lemma normalize_keys (self : dict K (num N)) :
  keys (state_of (normalize N self)) = keys self.
Proof. apply normalize_loop_keys. auto. Qed.
End NormalizeKeys.

(** X5: [normalize()] never adds, removes or reorders a key, whether it
    returns or raises. *)
Theorem normalize_preserves_keys :
  forall (N : Number) (K : Type) (EK : EqKey K) (self : dict K (num N)),
    keys (state_of (normalize N self)) = keys self.
Proof. intros N K EK self. apply normalize_keys. Qed.

Lemma float_div_infinity (x y : float) :
  finite x = true -> y = infinity \/ y = neg_infinity ->
  n_is_zero binary64 (x / y)%float = true.
Proof.
  unfold finite. intros F Y. apply float_is_zero. rewrite div_spec.
  destruct Y as [-> | ->].
  - change (Prim2SF infinity) with (S754_infinity false).
    destruct (Prim2SF x); try discriminate; simpl; eauto.
  - change (Prim2SF neg_infinity) with (S754_infinity true).
    destruct (Prim2SF x); try discriminate; simpl; eauto.
Qed.

(** X6: when the float total of the weights is NaN, [normalize()] does not
    raise: it returns with every weight replaced by NaN. *)
Theorem normalize_nan_total :
  forall (K : Type) (EK : EqKey K) (self : dict K float),
    NoDup (keys self) -> total binary64 self = nan ->
    normalize binary64 self = Returns (map_weights (fun _ _ => nan) self).
Proof. intros K EK self ND T. now apply normalize_nan. Qed.

Lemma normalize_nan_total_witness :
  let self : dict Z float := [(1, infinity); (2, neg_infinity)] in
  normalize binary64 self = Returns (map_weights (fun _ _ => nan) self).
Proof.
  apply (normalize_nan_total Z EqKey_Z); [distinct_keys | reflexivity].
Defined.

(** X7: when the weights are finite and their float total overflows to an
    infinity, [normalize()] returns with every weight a zero, and a
    further [normalize()] of the result raises ZeroDivisionError. *)
Theorem normalize_overflow :
  forall (K : Type) (EK : EqKey K) (self : dict K float),
    NoDup (keys self) ->
    (forall k w, In (k, w) self -> finite w = true) ->
    total binary64 self = infinity \/ total binary64 self = neg_infinity ->
    exists once,
      normalize binary64 self = Returns once
      /\ keys once = keys self
      /\ (forall k w, In (k, w) once -> n_is_zero binary64 w = true)
      /\ normalize binary64 once = Raises ZeroDivisionError once.
Proof.
  intros K EK self ND F T.
  assert (NZ : n_is_zero binary64 (total binary64 self) = false)
    by (destruct T as [-> | ->]; reflexivity).
  assert (Z : forall k w, In (k, w) (scaled binary64 (total binary64 self) self)
                          -> n_is_zero binary64 w = true).
  { intros k w I. unfold scaled, map_weights in I.
    apply in_map_iff in I as ([k0 w0] & E & I). inversion E; subst.
    apply float_div_infinity; [eapply F, I | exact T]. }
  eexists. split; [now apply normalize_nonzero|].
  split; [apply keys_map_weights|]. split; [exact Z|].
  apply normalize_zero.
  - destruct self as [|kv self']; [|discriminate].
    exfalso. destruct T as [T|T]; apply (f_equal Prim2SF) in T;
      vm_compute in T; discriminate T.
  - apply float_total_zero. intros w I. unfold values in I.
    apply in_map_iff in I as ([k w0] & <- & I). eapply Z, I.
Qed.

Lemma normalize_overflow_witness :
  let self : dict Z float := [(1, 0x1p+1023%float); (2, 0x1p+1023%float)] in
  exists once,
    normalize binary64 self = Returns once
    /\ keys once = keys self
    /\ (forall k w, In (k, w) once -> n_is_zero binary64 w = true)
    /\ normalize binary64 once = Raises ZeroDivisionError once.
Proof.
  apply (normalize_overflow Z EqKey_Z).
  - distinct_keys.
  - intros k w I. simpl in I.
    repeat (destruct I as [E|I]; [inversion E; reflexivity|]). contradiction.
  - left. reflexivity.
Defined.

(** ** Normalization in exact arithmetic *)

Section ExactNormalize.
Local Open Scope Qc_scope.
Context {K : Type} `{EqKey K}.
Implicit Type self : dict K Qc.

Lemma exact_total_ssum self : total exact self = ssum snd self.
Proof.
  unfold total, values. simpl. rewrite fold_left_ssum, ssum_map.
  apply Qcplus_0_l.
Qed.






End ExactNormalize.





(** ** Bayesian update: what it keeps, when it fails, how it composes *)

Lemma get_map_weights {K V} `{EqKey K} (g : K -> V -> V) (d : dict K V) k :
  get (map_weights g d) k = option_map (g k) (get d k).
Proof.
  unfold map_weights. induction d as [|[a w] d IH]; simpl; [reflexivity|].
  destruct (keqb a k) eqn:E; [|exact IH].
  apply keqb_eq in E. now subst.
Qed.

Section UpdateKeys.
Variable N : Number.
Context {Hypo Data : Type} `{EqKey Hypo}.
Variable likelihood : Data -> Hypo -> num N.

Lemma update_loop_keys (hypos : list Hypo) (data : Data)
    (self : dict Hypo (num N)) :
  (forall h, In h hypos -> In h (keys self)) ->
  keys (update_loop N likelihood hypos data self) = keys self.
Proof.
  revert self. induction hypos as [|h hypos IH]; intros self A; [reflexivity|].
  simpl. rewrite IH.
  - apply keys_setitem_In. apply A. now left.
  - intros h' I. rewrite keys_setitem_In by (apply A; now left).
    apply A. now right.
Qed.

Lemma bayesian_update_keys (self : dict Hypo (num N)) (data : Data) :
  keys (state_of (bayesian_update N likelihood self data)) = keys self.
Proof.
  unfold bayesian_update. rewrite normalize_keys.
  apply update_loop_keys. auto.
Qed.

Lemma bayesian_update_cases (self : dict Hypo (num N)) (data : Data) :
  NoDup (keys self) ->
  let updated := reweighted N likelihood data self in
  (self <> [] /\ n_is_zero N (total N updated) = true
   /\ bayesian_update N likelihood self data
      = Raises ZeroDivisionError updated)
  \/ ((self = [] \/ n_is_zero N (total N updated) = false)
      /\ bayesian_update N likelihood self data
         = Returns (scaled N (total N updated) updated)).
Proof.
  intros ND updated. rewrite bayesian_update_eq by exact ND. fold updated.
  assert (NDu : NoDup (keys updated))
    by (unfold updated, reweighted; now rewrite keys_map_weights).
  destruct self as [|kv self'] eqn:Es.
  - right. split; [now left | reflexivity].
  - destruct (n_is_zero N (total N updated)) eqn:Z.
    + left. split; [discriminate|]. split; [reflexivity|].
      apply normalize_zero; [discriminate | exact Z].
    + right. split; [now right|]. now apply normalize_nonzero.
Qed.
End UpdateKeys.

(** X10: [bayesian_update] never adds, removes or reorders a hypothesis,
    whether it returns or raises. *)
Theorem bayesian_update_preserves_hypotheses :
  forall (N : Number) (Hypo Data : Type) (EK : EqKey Hypo)
         (likelihood : Data -> Hypo -> num N)
         (self : dict Hypo (num N)) (data : Data),
    keys (state_of (bayesian_update N likelihood self data)) = keys self.
Proof. intros. apply bayesian_update_keys. Qed.

(** X11: [bayesian_update] raises exactly when the Suite is not empty and
    the updated weights sum to 0, and it is not rolled back: the Suite is
    left with every weight multiplied by its likelihood, not normalized. *)
Theorem bayesian_update_raises_iff :
  forall (N : Number) (Hypo Data : Type) (EK : EqKey Hypo)
         (likelihood : Data -> Hypo -> num N)
         (self : dict Hypo (num N)) (data : Data),
    NoDup (keys self) ->
    let updated := reweighted N likelihood data self in
    ((exists left_behind,
         bayesian_update N likelihood self data
         = Raises ZeroDivisionError left_behind)
     <-> self <> [] /\ n_is_zero N (total N updated) = true)
    /\ (forall e left_behind,
           bayesian_update N likelihood self data = Raises e left_behind ->
           left_behind = updated).
Proof.
  intros N Hypo Data EK likelihood self data ND updated. subst updated.
  destruct (bayesian_update_cases N likelihood self data ND)
    as [(NE & Z & E) | ([Em | NZ] & E)]; rewrite E.
  - split.
    + split; [intros _; now split | intros _; eauto].
    + intros e s [= _ <-]. reflexivity.
  - split.
    + split; [intros [s D]; discriminate | intros [NE _]; contradiction].
    + intros e s D. discriminate.
  - split.
    + split; [intros [s D]; discriminate | intros [_ Z]; congruence].
    + intros e s D. discriminate.
Qed.

Lemma bayesian_update_raises_iff_witness :
  let like := DiceSuite_likelihood binary64 (dice binary64) in
  let self := DiceSuite binary64 [0; 1; 2; 3; 4]%nat in
  let updated := reweighted binary64 like 21 self in
  ((exists left_behind,
       bayesian_update binary64 like self 21
       = Raises ZeroDivisionError left_behind)
   <-> self <> [] /\ n_is_zero binary64 (total binary64 updated) = true)
  /\ (forall e left_behind,
         bayesian_update binary64 like self 21 = Raises e left_behind ->
         left_behind = updated).
Proof.
  apply (bayesian_update_raises_iff binary64 ref Z EqKey_nat).
  distinct_keys.
Defined.

Section ExactUpdate.
Local Open Scope Qc_scope.
Context {Hypo Data : Type} `{EqKey Hypo}.
Variable likelihood : Data -> Hypo -> Qc.
Implicit Type self : dict Hypo Qc.

Lemma exact_total_map_weights (g : Hypo -> Qc -> Qc) self :
  total exact (map_weights g self)
  = ssum (fun kv => g (fst kv) (snd kv)) self.
Proof.
  rewrite exact_total_ssum. unfold map_weights. now rewrite ssum_map.
Qed.

End ExactUpdate.





(** ** Normalization in binary64: how close to 1 *)

Lemma rational_total_qsum {K} (d : dict K float) :
  all_nonneg (values d) -> rational_total d = Some (qsum (values d)).
Proof.
  induction d as [|[k w] d IH]; intros Nl; [reflexivity|].
  unfold values in Nl. cbn [map snd] in Nl.
  inversion Nl as [|? ? Nw Nl']; subst.
  cbn [rational_total values map snd qsum fold_right].
  rewrite (nonneg_float_to_Q w Nw), (IH Nl'). reflexivity.
Qed.

(** X14: in binary64, on a Pmf of at most 4,000,000 entries whose weights
    are all [>= 0.0] and whose total is finite and not 0, [normalize()]
    returns with the same keys; every weight is then a real number between
    0 and 1 + 4.45e-10, the exact sum of the weights is within 4.45e-10
    of 1, and their float sum is within 8.9e-10 of 1. *)
Theorem normalize_accuracy :
  forall (K : Type) (EK : EqKey K) (self : dict K float),
    NoDup (keys self) ->
    Z.of_nat (length self) <= 4000000 ->
    forallb nonnegative (values self) = true ->
    finite (total binary64 self) = true ->
    n_is_zero binary64 (total binary64 self) = false ->
    exists once s,
      normalize binary64 self = Returns once
      /\ keys once = keys self
      /\ (forall k w, In (k, w) once ->
            exists q, float_to_Q w = Some q
                      /\ (0 <= q)%Q /\ (q <= 1 + (445 # 10 ^ 12))%Q)
      /\ rational_total once = Some s
      /\ (Qabs (s - 1) <= 445 # 10 ^ 12)%Q
      /\ close_to (89 # 10 ^ 11) (total binary64 once) 1 = true.
Proof.
  intros K EK self ND Len Pos F NZ.
  assert (Nl : all_nonneg (values self)).
  { apply (fold_finite_all_nonneg (values self) 0%float eq_refl); [|exact F].
    apply Forall_forall. intros w I.
    exact (proj1 (forallb_forall _ _) Pos w I). }
  assert (Len' : Z.of_nat (length (values self)) <= 4000000).
  { unfold values. rewrite length_map. exact Len. }
  pose proof (normalized_values (values self) Nl Len' F NZ) as HN.
  cbv zeta in HN.
  change (fold_left PrimFloat.add (values self) 0%float)
    with (total binary64 self) in HN.
  pose proof (normalize_nonzero binary64 self ND NZ) as E1.
  pose proof (values_scaled (total binary64 self) self) as V1.
  assert (K1 : keys (scaled binary64 (total binary64 self) self) = keys self).
  { unfold scaled. apply keys_map_weights. }
  revert E1 V1 K1.
  generalize (scaled binary64 (total binary64 self) self). intros once E1 V1 K1.
  assert (T1 : total binary64 once
               = fold_left PrimFloat.add
                   (map (fun w => (w / total binary64 self)%float) (values self))
                   0%float)
    by (rewrite <- V1; reflexivity).
  rewrite <- T1, <- V1 in HN.
  destruct HN as (No & Bp & Ls & Us & NT2 & L2 & U2).
  exists once, (qsum (values (V:=float) once)).
  split; [exact E1|]. split; [exact K1|]. split; [|split; [|split]].
  - intros k w I.
    assert (Iw : In w (values once)).
    { unfold values. apply in_map_iff. exists (k, w). split; [reflexivity | exact I]. }
    pose proof (proj1 (Forall_forall _ _) No w Iw) as Nw. cbv beta in Nw.
    exists (Qof w). split; [apply nonneg_float_to_Q; exact Nw|].
    split; [apply nonneg_Qof; exact Nw|].
    change (445 # 10 ^ 12)%Q with (445 # 1000000000000)%Q. exact (Bp w Iw).
  - apply rational_total_qsum. exact No.
  - change (445 # 10 ^ 12)%Q with (445 # 1000000000000)%Q.
    apply Qabs_Qle_condition. split; lra.
  - unfold close_to. rewrite (nonneg_float_to_Q _ NT2).
    change (89 # 10 ^ 11)%Q with (89 # 100000000000)%Q.
    apply Qle_bool_iff. apply Qabs_Qle_condition. split; lra.
Qed.

#[warnings="-inexact-float"]
Lemma normalize_accuracy_witness :
  let self : dict Z float := [(1, 1%float); (2, 3%float); (3, 0.1%float)] in
  exists once s,
    normalize binary64 self = Returns once
    /\ keys once = keys self
    /\ (forall k w, In (k, w) once ->
          exists q, float_to_Q w = Some q
                    /\ (0 <= q)%Q /\ (q <= 1 + (445 # 10 ^ 12))%Q)
    /\ rational_total once = Some s
    /\ (Qabs (s - 1) <= 445 # 10 ^ 12)%Q
    /\ close_to (89 # 10 ^ 11) (total binary64 once) 1 = true.
Proof.
  apply (normalize_accuracy Z EqKey_Z).
  - distinct_keys.
  - cbn [length]. lia.
  - reflexivity.
  - reflexivity.
  - reflexivity.
Defined.

(** ** Sums of distributions: mass, mean and identity *)

Section ExactSumFacts.
Local Open Scope Qc_scope.
Context {K : Type} `{EqKey K}.
Variable key_add : K -> K -> K.
Implicit Types p q : dict K Qc.

Lemma exact_total_dot p : total exact p = dot (fun _ => 1) p.
Proof.
  rewrite exact_total_ssum. unfold dot. apply ssum_ext. intros kv. ring.
Qed.

Lemma exact_total_combine p q :
  total exact (combine_sum exact key_add p q) = total exact p * total exact q.
Proof.
  rewrite exact_total_dot, dot_combine, !exact_total_ssum.
  rewrite (Qcmult_comm (ssum snd p) (ssum snd q)), ssum_scale.
  apply ssum_ext. intros kp1.
  rewrite (Qcmult_comm (ssum snd q) (snd kp1)), ssum_scale.
  apply ssum_ext. intros kp2. ring.
Qed.

End ExactSumFacts.

(** The entries of [q], added one by one to an empty Pmf, give [q]
    back. *)
Lemma accumulate_all {K} `{EqKey K} (g : K * Qc -> K * Qc)
    (done rest : dict K Qc) :
  (forall kv, g kv = kv) ->
  NoDup (keys (done ++ rest)) ->
  fold_left (fun d kv => accumulate exact d (g kv)) rest done = done ++ rest.
Proof.
  intros G. revert done. induction rest as [|[k w] rest IH]; intros done ND.
  - cbn [fold_left]. now rewrite app_nil_r.
  - cbn [fold_left]. rewrite G.
    assert (Nk : ~ In k (keys done)).
    { unfold keys in ND. rewrite map_app in ND. cbn [map fst] in ND.
      apply NoDup_remove_2 in ND. rewrite in_app_iff in ND. tauto. }
    assert (E : accumulate exact done (k, w) = done ++ [(k, w)]).
    { unfold accumulate, weight_of. cbn [fst snd]. rewrite getitem_eq.
      rewrite (proj2 (get_None done k) Nk).
      rewrite <- (app_nil_r done) at 1.
      rewrite setitem_app_notIn by exact Nk. cbn [setitem].
      f_equal. f_equal. f_equal. apply Qcplus_0_l. }
    rewrite E, IH.
    + now rewrite <- app_assoc.
    + rewrite <- app_assoc. exact ND.
Qed.

(** X15: in exact arithmetic the total weight of a sum of two
    distributions is the product of their totals; the sum of two
    normalized Pmfs is normalized. *)
Theorem combine_sum_total :
  forall (K : Type) (EK : EqKey K) (key_add : K -> K -> K) (p q : dict K Qc),
    total exact (combine_sum exact key_add p q)
    = (total exact p * total exact q)%Qc.
Proof. intros K EK key_add p q. apply exact_total_combine. Qed.

Section SumMean.
Local Open Scope Qc_scope.

Lemma ssum_mul {A B} (f : A -> Qc) (g : B -> Qc) (l : list A) (m : list B) :
  ssum f l * ssum g m = ssum (fun a => ssum (fun b => f a * g b) m) l.
Proof.
  rewrite Qcmult_comm, ssum_scale. apply ssum_ext. intros a.
  rewrite Qcmult_comm, ssum_scale. reflexivity.
Qed.

Lemma Q2Qc_inject_plus (a b : Z) :
  Q2Qc (inject_Z (a + b)) = Q2Qc (inject_Z a) + Q2Qc (inject_Z b).
Proof.
  apply Qc_is_canon. unfold Qcplus. cbn [this Q2Qc].
  rewrite !Qred_correct, inject_Z_plus. reflexivity.
Qed.

(** X16: in exact arithmetic the mean of the sum of two distributions over
    the integers is the sum of their means, each weighted by the total of
    the other distribution. *)
Theorem combine_sum_mean :
  forall (p q : dict Z Qc),
    let mean (d : dict Z Qc) : Qc := dot (fun k => Q2Qc (inject_Z k)) d in
    mean (combine_sum exact Z.add p q)
    = mean p * total exact q + total exact p * mean q.
Proof.
  intros p q mean. unfold mean.
  rewrite dot_combine, !exact_total_ssum. unfold dot.
  rewrite !ssum_mul, <- ssum_plus.
  apply ssum_ext. intros [k1 w1]. rewrite <- ssum_plus.
  apply ssum_ext. intros [k2 w2]. cbn [fst snd].
  rewrite Q2Qc_inject_plus. ring.
Qed.
End SumMean.

Lemma fold_left_mapped {A B C} (f : A -> B -> A) (g : C -> B) (l : list C) :
  forall a, fold_left f (map g l) a = fold_left (fun a x => f a (g x)) l a.
Proof. induction l as [|x l IH]; intros a; [reflexivity | apply IH]. Qed.

Lemma list_prod_singleton {A B} (l : list A) (b : B) :
  list_prod l [b] = map (fun a => (a, b)) l.
Proof.
  induction l as [|a l IH]; [reflexivity|].
  cbn [list_prod map app]. now rewrite IH.
Qed.

(** X17: [Pmf([0])], the additive identity proposed in the notebook, is a
    left and right identity of [+] in exact arithmetic: the sum has the
    entries of the other operand, in the same order. *)
Theorem combine_sum_identity :
  forall q : dict Z Qc,
    NoDup (keys q) ->
    combine_sum exact Z.add (Pmf exact [0]) q = q
    /\ combine_sum exact Z.add q (Pmf exact [0]) = q.
Proof.
  intros q ND. split.
  - rewrite combine_sum_products. unfold products.
    change (Pmf exact [0]) with [(0, (0 + 1)%Qc)].
    cbn [list_prod]. rewrite app_nil_r, !map_map. cbn [fst snd].
    rewrite fold_left_mapped.
    apply (accumulate_all (fun kv => (0 + fst kv, ((0 + 1)%Qc * snd kv)%Qc)) [] q);
      [|exact ND].
    intros [k w]. cbn [fst snd]. f_equal.
    change (n_mul exact) with Qcmult. ring.
  - rewrite combine_sum_products. unfold products.
    change (Pmf exact [0]) with [(0, (0 + 1)%Qc)].
    rewrite list_prod_singleton, !map_map. cbn [fst snd].
    rewrite fold_left_mapped.
    apply (accumulate_all (fun kv => (fst kv + 0, (snd kv * (0 + 1)%Qc)%Qc)) [] q);
      [|exact ND].
    intros [k w]. cbn [fst snd]. f_equal; [lia|].
    change (n_mul exact) with Qcmult. ring.
Qed.

Lemma combine_sum_identity_witness :
  let q : dict Z Qc := [(1, Q2Qc (1 # 3)); (5, Q2Qc (2 # 3))] in
  combine_sum exact Z.add (Pmf exact [0]) q = q
  /\ combine_sum exact Z.add q (Pmf exact [0]) = q.
Proof. apply combine_sum_identity. distinct_keys. Defined.

(** ** The dice: [make_die] and [DiceSuite.likelihood] *)




Section FreshCounter.
Context {K V : Type} `{EqKey K}.
Variables (zero one : V) (add : V -> V -> V).


End FreshCounter.

Section ExactDie.
Local Open Scope Qc_scope.





End ExactDie.

(** X18: a die with no sides is an empty Pmf: for [num_sides <= 0],
    [make_die] returns the empty Pmf; the [normalize()] inside has nothing
    to divide and does not raise. *)
Theorem make_die_no_sides :
  forall (N : Number) (num_sides : Z),
    num_sides <= 0 -> make_die N num_sides = Returns [].
Proof.
  intros N n Le. unfold make_die, range.
  replace (Z.to_nat (n + 1 - 1)) with 0%nat by lia. reflexivity.
Qed.

Lemma make_die_no_sides_witness :
  make_die binary64 0 = Returns [] /\ make_die exact (-3) = Returns [].
Proof. split; apply make_die_no_sides; lia. Defined.




